(** * Shared-counter programs of AlmirSai/Scripts

    Three programs are modelled here, each from its source file:

    - [Mutex]       src/atomic/main.cpp: 100 threads increment a plain [int]
                    under a [std::mutex] held for the whole loop;
    - [Atomic]      src/src/atomic/main.cpp: the same loop on a
                    [std::atomic<int>], without a lock;
    - [FeatureTest] src/src/atomic/test_features.cpp: five threads, a
                    thousand atomic increments each.

    All three share one shape: [main] fills a [std::vector<std::thread>] in a
    counting loop, joins the threads in vector order, prints and returns.
    That shape is modelled once ([Module Harness]) as an interleaving
    machine: a state holds the globals, the local state of every spawned
    thread, the position of [main] and what was written to standard output;
    a step is one move of [main] or of one worker.  A schedule is the list of
    threads that move, one after the other; the theorems quantify over all
    schedules.  Sequentially consistent interleaving is the semantics the
    C++ memory model gives these programs: the atomic accesses use the
    default [memory_order_seq_cst] and the plain accesses are ordered by the
    mutex and by [join]. *)

From Stdlib Require Import ZArith String DecimalString Lia.
From stdpp Require Import base numbers list.

Local Open Scope Z_scope.

(** ** The 32-bit [int] *)

Module Int.

Definition INT_MAX : Z := 2147483647.
Definition INT_MIN : Z := -2147483648.

Definition in_range (z : Z) : Prop := INT_MIN <= z <= INT_MAX.

(** Two's complement reduction to 32 bits. *)
Definition wrap (z : Z) : Z := (z + 2147483648) mod 4294967296 - 2147483648.

(** [++] on a plain [int]: signed overflow is undefined behaviour
    ([None]). *)
Definition incr (x : Z) : option Z :=
  if x <? INT_MAX then Some (x + 1) else None.

(** [fetch_add] on a [std::atomic<int>]: the new value; it wraps around
    and has no undefined result. *)
Definition fetch_add (x d : Z) : Z := wrap (x + d).

(** [std::to_string] and [operator<<] on an integer: decimal digits, with
    a leading minus sign for a negative number. *)
Definition to_string (z : Z) : string := NilZero.string_of_int (Z.to_int z).

End Int.

(** The outcome of one move of a thread. *)
Inductive result (A : Type) : Type :=
| Ok (a : A)      (* the thread has moved *)
| Stuck           (* the thread cannot move: not started, blocked, finished *)
| Undef.          (* the move has undefined behaviour *)
Arguments Ok {A} a.
Arguments Stuck {A}.
Arguments Undef {A}.

(** The threads of a program: [main] and the workers, named by their index
    in the vector [threads]. *)
Inductive tid : Type := Main | Worker (k : nat).

(** Where [main] stands. *)
Inductive main_pc : Type :=
| Spawning (i : Z)            (* at the test of the first loop, with its [i] *)
| Joining (rest : list nat)   (* in the second loop, threads left to join *)
| Printing                    (* at the output statement *)
| Returning                   (* at [return 0] *)
| Exited (code : Z).          (* [main] has returned [code] *)

(** ** The thread harness common to the three programs *)

Module Harness.

Section Machine.

Context {G L : Type}.

(** What differs between the programs. *)
Variable thread_count : G -> Z.                    (* bound of the spawn loop *)
Variable body : nat -> G -> L -> result (G * L).   (* one move of worker [k] *)
Variable entry : L.                                (* a thread that has just been created *)
Variable finished : L -> bool.                     (* the thread function has returned *)
Variable join_order : nat -> list nat.             (* order in which a vector of that size is joined *)
Variable report : G -> string.                     (* what is printed after the joins *)

Record state : Type := State {
  glob : G;               (* the global variables *)
  threads : list L;       (* the vector [threads]: local state of each worker *)
  pc : main_pc;
  out : string            (* standard output so far *)
}.

Definition init (g : G) (o : string) : state :=
  {| glob := g; threads := []; pc := Spawning 0; out := o |}.

(** One move of [main].
    [for (int i = 0; i < threadCount; ++i) threads.emplace_back(...)]:
    one move tests, creates the thread and increments [i];
    [for (auto& thread : threads) thread.join()]: one move joins one
    thread, and blocks while that thread is running.  The threads are
    joined in the order [join_order] lists them; the sources iterate over
    the vector, which is [seq 0].  (An order that names a thread the vector
    does not hold blocks [main]; no source does that.) *)
Definition main_step (s : state) : result state :=
  match pc s with
  | Spawning i =>
      if i <? thread_count (glob s) then
        match Int.incr i with
        | Some i' => Ok {| glob := glob s; threads := threads s ++ [entry];
                           pc := Spawning i'; out := out s |}
        | None => Undef
        end
      else Ok {| glob := glob s; threads := threads s;
                 pc := Joining (join_order (length (threads s))); out := out s |}
  | Joining [] =>
      Ok {| glob := glob s; threads := threads s; pc := Printing; out := out s |}
  | Joining (k :: rest) =>
      match threads s !! k with
      | Some l => if finished l
                  then Ok {| glob := glob s; threads := threads s;
                             pc := Joining rest; out := out s |}
                  else Stuck
      | None => Stuck
      end
  | Printing =>
      Ok {| glob := glob s; threads := threads s; pc := Returning;
            out := String.append (out s) (report (glob s)) |}
  | Returning =>
      Ok {| glob := glob s; threads := threads s; pc := Exited 0; out := out s |}
  | Exited _ => Stuck
  end.

(** One move of worker [k]: it exists once [main] has created it. *)
Definition worker_step (k : nat) (s : state) : result state :=
  match threads s !! k with
  | None => Stuck
  | Some l =>
      match body k (glob s) l with
      | Ok (g', l') => Ok {| glob := g'; threads := <[k:=l']> (threads s);
                             pc := pc s; out := out s |}
      | Stuck => Stuck
      | Undef => Undef
      end
  end.

Definition step (t : tid) (s : state) : result state :=
  match t with
  | Main => main_step s
  | Worker k => worker_step k s
  end.

(** Running a schedule: every thread named must be able to move. *)
Fixpoint exec (sched : list tid) (s : state) : result state :=
  match sched with
  | [] => Ok s
  | t :: sched' =>
      match step t s with
      | Ok s' => exec sched' s'
      | Stuck => Stuck
      | Undef => Undef
      end
  end.

Definition terminated (s : state) : Prop := exists c, pc s = Exited c.

Definition exit_code (s : state) : option Z :=
  match pc s with Exited c => Some c | _ => None end.

End Machine.

End Harness.

Arguments Harness.state : clear implicits.

(** The line break written by [std::endl]. *)
Definition endl : string := String (Ascii.ascii_of_nat 10) EmptyString.

(** ** src/atomic/main.cpp: the counter under a mutex *)

Module Mutex.

(** The global variables: [threadCount], [iterations], [counter] and the
    mutex [m], which is free ([None]) or owned by one worker. *)
Record globals : Type := Globals {
  threadCount : Z;
  iterations : Z;
  counter : Z;
  m : option nat
}.

(** The statement a worker executes next in the lambda [increment]. *)
Inductive label : Type :=
| Acquire         (* std::lock_guard<std::mutex> g(m); int i = 0 *)
| LoopTest        (* i < iterations *)
| ReadCounter     (* counter++ : the read *)
| WriteCounter    (* counter++ : the write *)
| ToString        (* auto memeSmth = std::to_string(counter) *)
| LoopIncr        (* end of the body, ++i *)
| Release         (* the lock_guard goes out of scope *)
| Returned.

(** The local variables of a worker; [tmp] is the value [counter++] has
    read and not yet written back. *)
Record locals : Type := Locals {
  line : label;
  i : Z;
  tmp : Z;
  memeSmth : string
}.

Definition entry : locals :=
  {| line := Acquire; i := 0; tmp := 0; memeSmth := EmptyString |}.

Definition finished (l : locals) : bool :=
  match line l with Returned => true | _ => false end.

Definition goto (p : label) (l : locals) : locals :=
  {| line := p; i := i l; tmp := tmp l; memeSmth := memeSmth l |}.

(** One move of worker [k] through the lambda [increment] (lines 15-22).
    Locking a mutex the thread already owns, unlocking one it does not own
    and overflowing a plain [int] are undefined. *)
Definition increment (k : nat) (g : globals) (l : locals) : result (globals * locals) :=
  match line l with
  | Acquire =>
      match m g with
      | None =>
          Ok ({| threadCount := threadCount g; iterations := iterations g;
                 counter := counter g; m := Some k |},
              {| line := LoopTest; i := 0; tmp := tmp l; memeSmth := memeSmth l |})
      | Some h => if Nat.eqb h k then Undef else Stuck
      end
  | LoopTest =>
      if i l <? iterations g then Ok (g, goto ReadCounter l) else Ok (g, goto Release l)
  | ReadCounter =>
      Ok (g, {| line := WriteCounter; i := i l; tmp := counter g; memeSmth := memeSmth l |})
  | WriteCounter =>
      match Int.incr (tmp l) with
      | Some v =>
          Ok ({| threadCount := threadCount g; iterations := iterations g;
                 counter := v; m := m g |},
              goto ToString l)
      | None => Undef
      end
  | ToString =>
      Ok (g, {| line := LoopIncr; i := i l; tmp := tmp l;
                memeSmth := Int.to_string (counter g) |})
  | LoopIncr =>
      match Int.incr (i l) with
      | Some i' => Ok (g, {| line := LoopTest; i := i'; tmp := tmp l; memeSmth := EmptyString |})
      | None => Undef
      end
  | Release =>
      match m g with
      | Some h =>
          if Nat.eqb h k
          then Ok ({| threadCount := threadCount g; iterations := iterations g;
                      counter := counter g; m := None |},
                   goto Returned l)
          else Undef
      | None => Undef
      end
  | Returned => Stuck
  end.

(** [std::cout << "Counter: " << counter << std::endl] (line 33). *)
Definition report (g : globals) : string :=
  String.append "Counter: " (String.append (Int.to_string (counter g)) endl).

Definition state : Type := Harness.state globals locals.

(** The program with the threads joined in the order [order] gives to a
    vector of that size; the source joins them in vector order. *)
Definition step_in (order : nat -> list nat) : tid -> state -> result state :=
  Harness.step threadCount increment entry finished order report.
Definition exec_in (order : nat -> list nat) : list tid -> state -> result state :=
  Harness.exec threadCount increment entry finished order report.

Definition step : tid -> state -> result state := step_in (seq 0).
Definition exec : list tid -> state -> result state := exec_in (seq 0).

(** The state in which [main] starts when the globals are initialised to
    [n] threads and [k] iterations. *)
Definition start (n k : Z) : state :=
  Harness.init {| threadCount := n; iterations := k; counter := 0; m := None |} EmptyString.

(** The program as it is: [int threadCount = 100; int iterations = 1000000;] *)
Definition main : state := start 100 1000000.

End Mutex.

(** ** src/src/atomic/main.cpp: the atomic counter *)

Module Atomic.

(** The global variables: [threadCount], [iterations] and the
    [std::atomic<int> counter]. *)
Record globals : Type := Globals {
  threadCount : Z;
  iterations : Z;
  counter : Z
}.

(** The statement a worker executes next in the lambda [increment]. *)
Inductive label : Type :=
| LoopTest        (* i < iterations *)
| Increment       (* counter++ *)
| ToString        (* auto memeSmth = std::to_string(counter) *)
| LoopIncr        (* end of the body, ++i *)
| Returned.

Record locals : Type := Locals {
  line : label;
  i : Z;
  memeSmth : string
}.

(** A new worker stands at the loop test with [int i = 0]. *)
Definition entry : locals :=
  {| line := LoopTest; i := 0; memeSmth := EmptyString |}.

Definition finished (l : locals) : bool :=
  match line l with Returned => true | _ => false end.

Definition goto (p : label) (l : locals) : locals :=
  {| line := p; i := i l; memeSmth := memeSmth l |}.

(** One move of a worker through the lambda [increment] (lines 13-20).
    [counter++] is one atomic read-modify-write; the conversion of
    [counter] for [std::to_string] is one atomic load. *)
Definition increment (k : nat) (g : globals) (l : locals) : result (globals * locals) :=
  match line l with
  | LoopTest =>
      if i l <? iterations g then Ok (g, goto Increment l) else Ok (g, goto Returned l)
  | Increment =>
      Ok ({| threadCount := threadCount g; iterations := iterations g;
             counter := Int.fetch_add (counter g) 1 |},
          goto ToString l)
  | ToString =>
      Ok (g, {| line := LoopIncr; i := i l; memeSmth := Int.to_string (counter g) |})
  | LoopIncr =>
      match Int.incr (i l) with
      | Some i' => Ok (g, {| line := LoopTest; i := i'; memeSmth := EmptyString |})
      | None => Undef
      end
  | Returned => Stuck
  end.

(** [std::cout << "Counter: " << counter << std::endl] (line 31). *)
Definition report (g : globals) : string :=
  String.append "Counter: " (String.append (Int.to_string (counter g)) endl).

Definition state : Type := Harness.state globals locals.

Definition step_in (order : nat -> list nat) : tid -> state -> result state :=
  Harness.step threadCount increment entry finished order report.
Definition exec_in (order : nat -> list nat) : list tid -> state -> result state :=
  Harness.exec threadCount increment entry finished order report.

Definition step : tid -> state -> result state := step_in (seq 0).
Definition exec : list tid -> state -> result state := exec_in (seq 0).

Definition start (n k : Z) : state :=
  Harness.init {| threadCount := n; iterations := k; counter := 0 |} EmptyString.

(** The program as it is: [int threadCount = 100; int iterations = 1000000;] *)
Definition main : state := start 100 1000000.

End Atomic.

(** ** src/src/atomic/test_features.cpp: the feature probe *)

Module FeatureTest.

(** The object [test]: its member [std::atomic<int> counter{0}]. *)
Record globals : Type := Globals { counter : Z }.

(** The statement a worker executes next in the lambda of line 29. *)
Inductive label : Type :=
| LoopTest        (* j < 1000 *)
| CallIncrement   (* increment(), that is counter++ *)
| LoopIncr        (* ++j *)
| Returned.

Record locals : Type := Locals { line : label; j : Z }.

Definition entry : locals := {| line := LoopTest; j := 0 |}.

Definition finished (l : locals) : bool :=
  match line l with Returned => true | _ => false end.

(** [void increment() { counter++; }] *)
Definition increment (g : globals) : globals :=
  {| counter := Int.fetch_add (counter g) 1 |}.

(** One move of a worker through the lambda (lines 29-33). *)
Definition worker (k : nat) (g : globals) (l : locals) : result (globals * locals) :=
  match line l with
  | LoopTest =>
      if j l <? 1000 then Ok (g, {| line := CallIncrement; j := j l |})
      else Ok (g, {| line := Returned; j := j l |})
  | CallIncrement => Ok (increment g, {| line := LoopIncr; j := j l |})
  | LoopIncr =>
      match Int.incr (j l) with
      | Some j' => Ok (g, {| line := LoopTest; j := j' |})
      | None => Undef
      end
  | Returned => Stuck
  end.

(** The bound of the spawn loop is the literal [5]. *)
Definition thread_count (g : globals) : Z := 5.

(** The value of the macro [__cplusplus] is the compiler's: every
    definition that prints it or tests it takes it as [cplusplus]. *)

(** Line 24, written before any thread is created. *)
Definition banner (cplusplus : Z) : string :=
  String.append "C++ Standard: " (String.append (Int.to_string cplusplus) endl).

(** [test_numeric] of line 45. *)
Definition test_numeric (x : Z) : Z := x * 2.

Definition numbers : list Z := [1; 2; 3; 4; 5].

(** [numbers | std::views::filter(n % 2 == 0)] *)
Definition even : list Z := filter (fun n => Z.rem n 2 = 0) numbers.

(** Lines 44-56, compiled when [__cplusplus >= 202002L]. *)
Definition cxx20_report : string :=
  String.append "Testing C++20 features:"
 (String.append endl
 (String.append "Numeric concept test: "
 (String.append (Int.to_string (test_numeric 42))
 (String.append endl
 (String.append "Ranges test - Even numbers:"
 (String.append
    (fold_right (fun n acc => String.append " " (String.append (Int.to_string n) acc))
                EmptyString even)
    endl)))))).

(** Line 40 and what follows it. *)
Definition report (cplusplus : Z) (g : globals) : string :=
  String.append "Final counter value: "
 (String.append (Int.to_string (counter g))
 (String.append endl
    (if 202002 <=? cplusplus then cxx20_report else EmptyString))).

Definition state : Type := Harness.state globals locals.

Definition step_in (cplusplus : Z) (order : nat -> list nat) : tid -> state -> result state :=
  Harness.step thread_count worker entry finished order (report cplusplus).
Definition exec_in (cplusplus : Z) (order : nat -> list nat)
  : list tid -> state -> result state :=
  Harness.exec thread_count worker entry finished order (report cplusplus).

Definition step (cplusplus : Z) : tid -> state -> result state := step_in cplusplus (seq 0).
Definition exec (cplusplus : Z) : list tid -> state -> result state := exec_in cplusplus (seq 0).

(** [test_features] once line 24 has run: [counter] is [0], the vector
    [threads] is empty and the banner is on standard output. *)
Definition test_features (cplusplus : Z) : state :=
  Harness.init {| counter := 0 |} (banner cplusplus).

End FeatureTest.

(** * Specifications

    The vocabulary of the properties: what a run is and what every run of a
    program ends with, the invariants the programs keep and the measures
    that bound their runs. *)

(** ** Runs *)

(** From the state [s0], whatever the schedule: a run can always be
    continued to termination (no deadlock), no run is longer than some
    bound (no infinite run), no move is undefined, and [Q] holds when
    [main] has returned. *)
Definition every_run {G L : Type}
    (exec : list tid -> Harness.state G L -> result (Harness.state G L))
    (s0 : Harness.state G L) (Q : Harness.state G L -> Prop) : Prop :=
  (forall sched s, exec sched s0 = Ok s ->
     exists sched' s', exec (sched ++ sched') s0 = Ok s' /\ Harness.terminated s') /\
  (exists bound, forall sched s, exec sched s0 = Ok s -> (length sched <= bound)%nat) /\
  (forall sched, exec sched s0 <> Undef) /\
  (forall sched s, exec sched s0 = Ok s -> Harness.terminated s -> Q s).

(** A run of one program and a run of another that have both terminated
    agree on what [obs] observes; two runs of one program do. *)
Definition agree {G L A : Type}
    (exec1 exec2 : list tid -> Harness.state G L -> result (Harness.state G L))
    (s0 : Harness.state G L) (obs : Harness.state G L -> A) : Prop :=
  forall sched1 sched2 s1 s2,
    exec1 sched1 s0 = Ok s1 -> Harness.terminated s1 ->
    exec2 sched2 s0 = Ok s2 -> Harness.terminated s2 ->
    obs s1 = obs s2.

Definition same_result {G L A : Type}
    (exec : list tid -> Harness.state G L -> result (Harness.state G L))
    (s0 : Harness.state G L) (obs : Harness.state G L -> A) : Prop :=
  agree exec exec s0 obs.

(** What a run has led to: the globals, standard output and the exit code. *)
Definition observe {G L : Type} (r : result (Harness.state G L))
  : option (G * string * option Z) :=
  match r with
  | Ok s => Some (Harness.glob s, Harness.out s, Harness.exit_code s)
  | _ => None
  end.

(** The schedule in which [main] creates [n] threads, each worker then
    runs on its own for [moves] moves, one worker after the other, and
    [main] joins them, prints and returns. *)
Definition serial (n moves : nat) : list tid :=
  repeat Main (S n) ++ flat_map (fun j => repeat (Worker j) moves) (seq 0 n)
  ++ repeat Main (n + 3).

(** ** The harness *)

(** The sum of [f] over the threads. *)
Definition total {L : Type} (f : L -> Z) (ws : list L) : Z :=
  foldr (fun l acc => f l + acc) 0 ws.

Section Vocabulary.

Context {G L : Type}.
Variable thread_count : G -> Z.
Variable body : nat -> G -> L -> result (G * L).
Variable entry : L.
Variable finished : L -> bool.
Variable join_order : nat -> list nat.
Variable report : G -> string.

(** [n] is the number of threads the program creates, [o0] what is on
    standard output when the harness starts, [I] an invariant of the
    globals and the vector of threads, and [wm l] a bound on the moves a
    worker in state [l] can still make. *)
Variable n : nat.
Variable o0 : string.
Variable I : G -> list L -> Prop.
Variable wm : L -> Z.

Abbreviation state := (Harness.state G L).
Abbreviation step := (Harness.step thread_count body entry finished join_order report).
Abbreviation exec := (Harness.exec thread_count body entry finished join_order report).

(** The local state of worker [j]; a worker that does not exist yet is
    about to be created in state [entry]. *)
Definition local_of (j : nat) (s : state) : L := default entry (Harness.threads s !! j).

(** How many moves of the schedule are moves of a worker [k] out of a
    local state [l] with [P k l]. *)
Fixpoint moves_from (P : nat -> L -> bool) (sched : list tid) (s : state) : nat :=
  match sched with
  | [] => 0%nat
  | t :: sched' =>
      match step t s with
      | Ok s' =>
          (match t with
           | Worker k => if P k (local_of k s) then 1 else 0
           | Main => 0
           end + moves_from P sched' s')%nat
      | _ => 0%nat
      end
  end.

(** The threads [ks] of the vector have returned. *)
Definition joined (ws : list L) (ks : list nat) : Prop :=
  forall k, k ∈ ks -> exists l, ws !! k = Some l /\ finished l = true.

Definition all_finished (ws : list L) : Prop :=
  forall l, l ∈ ws -> finished l = true.

(** Where [main] stands determines the size of the vector, which threads
    have returned and what has been printed. *)
Definition main_inv (s : state) : Prop :=
  match Harness.pc s with
  | Spawning i =>
      i = Z.of_nat (length (Harness.threads s)) /\
      (length (Harness.threads s) <= n)%nat /\
      Harness.out s = o0
  | Joining rest =>
      length (Harness.threads s) = n /\
      Harness.out s = o0 /\
      exists done, join_order n = done ++ rest /\ joined (Harness.threads s) done
  | Printing =>
      length (Harness.threads s) = n /\
      Harness.out s = o0 /\
      all_finished (Harness.threads s)
  | Returning =>
      length (Harness.threads s) = n /\
      Harness.out s = String.append o0 (report (Harness.glob s)) /\
      all_finished (Harness.threads s)
  | Exited c =>
      c = 0 /\
      length (Harness.threads s) = n /\
      Harness.out s = String.append o0 (report (Harness.glob s)) /\
      all_finished (Harness.threads s)
  end.

Definition inv (s : state) : Prop :=
  I (Harness.glob s) (Harness.threads s) /\ main_inv s.

(** The moves [main] can still make, and those of the threads it has yet
    to create. *)
Definition main_left (p : main_pc) (spawned : nat) : Z :=
  match p with
  | Spawning _ => (Z.of_nat n - Z.of_nat spawned) * (wm entry + 1) + Z.of_nat n + 4
  | Joining rest => Z.of_nat (length rest) + 3
  | Printing => 2
  | Returning => 1
  | Exited _ => 0
  end.

Definition moves_left (s : state) : Z :=
  total wm (Harness.threads s) + main_left (Harness.pc s) (length (Harness.threads s)).

End Vocabulary.

(** ** The programs *)

(** The increments a worker has performed: its [i], and one more between
    [counter++] and [++i]. *)
Definition atomic_performed (l : Atomic.locals) : Z :=
  Atomic.i l +
  match Atomic.line l with
  | Atomic.ToString | Atomic.LoopIncr => 1
  | _ => 0
  end.

(** Where a worker stands bounds its [i]. *)
Definition atomic_local_ok (k : Z) (l : Atomic.locals) : Prop :=
  0 <= Atomic.i l <= k /\
  match Atomic.line l with
  | Atomic.LoopTest => True
  | Atomic.Increment | Atomic.ToString | Atomic.LoopIncr => Atomic.i l < k
  | Atomic.Returned => Atomic.i l = k
  end.

(** The invariant of the program started with [n] threads and [k]
    iterations: the configuration is unchanged and the counter holds the
    increments performed so far, reduced to 32 bits. *)
Definition atomic_inv (n : nat) (k : Z) (g : Atomic.globals) (ws : list Atomic.locals) : Prop :=
  Atomic.threadCount g = Z.of_nat n /\
  Atomic.iterations g = k /\
  Atomic.counter g = Int.wrap (total atomic_performed ws) /\
  forall l, l ∈ ws -> atomic_local_ok k l.

(** The moves a worker can still make. *)
Definition atomic_left (k : Z) (l : Atomic.locals) : Z :=
  4 * (k - Atomic.i l) +
  match Atomic.line l with
  | Atomic.LoopTest => 1
  | Atomic.Increment => 0
  | Atomic.ToString => -1
  | Atomic.LoopIncr => -2
  | Atomic.Returned => 0
  end.

(** The increments a worker has performed. *)
Definition mutex_performed (l : Mutex.locals) : Z :=
  Mutex.i l +
  match Mutex.line l with
  | Mutex.ToString | Mutex.LoopIncr => 1
  | _ => 0
  end.

(** The worker is between the construction of its [lock_guard] and its
    destruction. *)
Definition in_critical (l : Mutex.locals) : bool :=
  match Mutex.line l with
  | Mutex.Acquire | Mutex.Returned => false
  | _ => true
  end.

(** The worker is inside its loop. *)
Definition in_loop (l : Mutex.locals) : bool :=
  match Mutex.line l with
  | Mutex.Acquire | Mutex.Release | Mutex.Returned => false
  | _ => true
  end.

(** The worker is about to read or to write the plain [int counter]. *)
Definition accesses_counter (l : Mutex.locals) : bool :=
  match Mutex.line l with
  | Mutex.ReadCounter | Mutex.WriteCounter | Mutex.ToString => true
  | _ => false
  end.

Definition mutex_local_ok (k : Z) (l : Mutex.locals) : Prop :=
  match Mutex.line l with
  | Mutex.Acquire => Mutex.i l = 0
  | Mutex.LoopTest => 0 <= Mutex.i l <= k
  | Mutex.ReadCounter | Mutex.WriteCounter | Mutex.ToString | Mutex.LoopIncr =>
      0 <= Mutex.i l < k
  | Mutex.Release | Mutex.Returned => Mutex.i l = k
  end.

(** The invariant of the program started with [n] threads and [k]
    iterations: the configuration is unchanged; the counter holds the
    increments performed so far; the mutex is owned by the one worker that
    is in its critical section, if any; a value read from the counter and
    not yet written back is still the value of the counter. *)
Definition mutex_inv (n : nat) (k : Z) (g : Mutex.globals) (ws : list Mutex.locals) : Prop :=
  Mutex.threadCount g = Z.of_nat n /\
  Mutex.iterations g = k /\
  Mutex.counter g = total mutex_performed ws /\
  (forall j l, ws !! j = Some l -> mutex_local_ok k l) /\
  (forall j l, ws !! j = Some l -> (in_critical l = true <-> Mutex.m g = Some j)) /\
  (forall j l, ws !! j = Some l -> Mutex.line l = Mutex.WriteCounter ->
               Mutex.tmp l = Mutex.counter g) /\
  (forall h, Mutex.m g = Some h -> (h < length ws)%nat).

(** The moves a worker can still make. *)
Definition mutex_left (k : Z) (l : Mutex.locals) : Z :=
  match Mutex.line l with
  | Mutex.Acquire => 5 * k + 3
  | Mutex.LoopTest => 5 * (k - Mutex.i l) + 2
  | Mutex.ReadCounter => 5 * (k - Mutex.i l) + 1
  | Mutex.WriteCounter => 5 * (k - Mutex.i l)
  | Mutex.ToString => 5 * (k - Mutex.i l) - 1
  | Mutex.LoopIncr => 5 * (k - Mutex.i l) - 2
  | Mutex.Release => 1
  | Mutex.Returned => 0
  end.

(** The increments a worker has performed. *)
Definition feature_performed (l : FeatureTest.locals) : Z :=
  FeatureTest.j l +
  match FeatureTest.line l with
  | FeatureTest.LoopIncr => 1
  | _ => 0
  end.

Definition feature_local_ok (l : FeatureTest.locals) : Prop :=
  0 <= FeatureTest.j l <= 1000 /\
  match FeatureTest.line l with
  | FeatureTest.LoopTest => True
  | FeatureTest.CallIncrement | FeatureTest.LoopIncr => FeatureTest.j l < 1000
  | FeatureTest.Returned => FeatureTest.j l = 1000
  end.

Definition feature_inv (g : FeatureTest.globals) (ws : list FeatureTest.locals) : Prop :=
  FeatureTest.counter g = Int.wrap (total feature_performed ws) /\
  forall l, l ∈ ws -> feature_local_ok l.

(** The moves a worker can still make. *)
Definition feature_left (l : FeatureTest.locals) : Z :=
  3 * (1000 - FeatureTest.j l) +
  match FeatureTest.line l with
  | FeatureTest.LoopTest => 1
  | FeatureTest.CallIncrement => 0
  | FeatureTest.LoopIncr => -1
  | FeatureTest.Returned => 0
  end.

(** Every run of the program returns with the counter at [v]. *)
Definition mutex_returns (n k v : Z) : Prop :=
  every_run Mutex.exec (Mutex.start n k) (fun s => Mutex.counter (Harness.glob s) = v).

Definition atomic_returns (n k v : Z) : Prop :=
  every_run Atomic.exec (Atomic.start n k) (fun s => Atomic.counter (Harness.glob s) = v).

(** The worker is about to call [increment()]. *)
Definition at_call (l : FeatureTest.locals) : bool :=
  match FeatureTest.line l with FeatureTest.CallIncrement => true | _ => false end.

(** The calls of [increment()] worker [j] makes in a schedule. *)
Definition feature_increments (cplusplus : Z) (j : nat)
    (sched : list tid) (s : FeatureTest.state) : nat :=
  moves_from FeatureTest.thread_count FeatureTest.worker FeatureTest.entry
    FeatureTest.finished (seq 0) (FeatureTest.report cplusplus)
    (fun k l => Nat.eqb k j && at_call l) sched s.

(** The worker is about to execute [counter++]. *)
Definition at_increment (l : Atomic.locals) : bool :=
  match Atomic.line l with Atomic.Increment => true | _ => false end.

(** The moves of a schedule that execute [counter++], by any worker and by
    worker [j]. *)
Definition atomic_increments (sched : list tid) (s : Atomic.state) : nat :=
  moves_from Atomic.threadCount Atomic.increment Atomic.entry Atomic.finished (seq 0)
    Atomic.report (fun _ l => at_increment l) sched s.

Definition atomic_increments_by (j : nat) (sched : list tid) (s : Atomic.state) : nat :=
  moves_from Atomic.threadCount Atomic.increment Atomic.entry Atomic.finished (seq 0)
    Atomic.report (fun k l => Nat.eqb k j && at_increment l) sched s.

(** The worker is about to lock the mutex; about to unlock it. *)
Definition at_acquire (l : Mutex.locals) : bool :=
  match Mutex.line l with Mutex.Acquire => true | _ => false end.

Definition at_release (l : Mutex.locals) : bool :=
  match Mutex.line l with Mutex.Release => true | _ => false end.

(** How often worker [j] has locked, and unlocked, the mutex in a
    schedule. *)
Definition mutex_acquisitions (j : nat) (sched : list tid) (s : Mutex.state) : nat :=
  moves_from Mutex.threadCount Mutex.increment Mutex.entry Mutex.finished (seq 0)
    Mutex.report (fun k l => Nat.eqb k j && at_acquire l) sched s.

Definition mutex_releases (j : nat) (sched : list tid) (s : Mutex.state) : nat :=
  moves_from Mutex.threadCount Mutex.increment Mutex.entry Mutex.finished (seq 0)
    Mutex.report (fun k l => Nat.eqb k j && at_release l) sched s.

(** The locking discipline in the state [s] that the schedule [sched] has
    led to from [s0]: a worker that has not locked the mutex yet does not
    own it; a worker inside its loop has locked it once, has not unlocked
    it and owns it; a worker unlocks it once, with its [i] at [k]; two
    workers are never inside their loops together; and while a worker is
    inside its loop no other worker can move. *)
Definition lock_discipline (k : Z) (sched : list tid) (s0 s : Mutex.state) : Prop :=
  (forall j l, Harness.threads s !! j = Some l ->
     match Mutex.line l with
     | Mutex.Acquire =>
         mutex_acquisitions j sched s0 = 0%nat /\ mutex_releases j sched s0 = 0%nat /\
         Mutex.m (Harness.glob s) <> Some j
     | Mutex.Release =>
         mutex_acquisitions j sched s0 = 1%nat /\ mutex_releases j sched s0 = 0%nat /\
         Mutex.m (Harness.glob s) = Some j /\ Mutex.i l = k
     | Mutex.Returned =>
         mutex_acquisitions j sched s0 = 1%nat /\ mutex_releases j sched s0 = 1%nat /\
         Mutex.m (Harness.glob s) <> Some j /\ Mutex.i l = k
     | _ =>
         mutex_acquisitions j sched s0 = 1%nat /\ mutex_releases j sched s0 = 0%nat /\
         Mutex.m (Harness.glob s) = Some j
     end) /\
  (forall j j' l l',
     Harness.threads s !! j = Some l -> Harness.threads s !! j' = Some l' ->
     in_loop l = true -> in_loop l' = true -> j = j') /\
  (forall j j' l,
     Harness.threads s !! j = Some l -> in_loop l = true -> j' <> j ->
     Mutex.step (Worker j') s = Stuck).

(** The final count does not depend on the order of the joins: a run of
    the program that joins its threads in the order [order] and a run of
    the program as it is end with the same count, and the reordered
    program returns wherever the program does. *)
Definition order_independent (n k : Z) (order : nat -> list nat) : Prop :=
  agree (Mutex.exec_in order) Mutex.exec (Mutex.start n k)
        (fun s => Mutex.counter (Harness.glob s)) /\
  agree (Atomic.exec_in order) Atomic.exec (Atomic.start n k)
        (fun s => Atomic.counter (Harness.glob s)) /\
  every_run (Atomic.exec_in order) (Atomic.start n k)
    (fun s => Atomic.counter (Harness.glob s) = Int.wrap (n * k)) /\
  (n * k <= Int.INT_MAX ->
   every_run (Mutex.exec_in order) (Mutex.start n k)
     (fun s => Mutex.counter (Harness.glob s) = n * k)).





(** ** Vocabulary of the further properties *)

(** Where [main] stands, counted in its moves when it creates no thread. *)
Definition main_index (p : main_pc) : nat :=
  match p with
  | Spawning _ => 0
  | Joining _ => 1
  | Printing => 2
  | Returning => 3
  | Exited _ => 4
  end.

(** The states of a program that creates no thread: the globals are those
    it started with, the vector is empty, and the report is printed by the
    third move of [main]. *)
Definition no_thread_inv {G L : Type} (report : G -> string) (g0 : G) (o0 : string)
    (s : Harness.state G L) : Prop :=
  Harness.glob s = g0 /\
  Harness.threads s = [] /\
  match Harness.pc s with
  | Spawning i => i = 0 /\ Harness.out s = o0
  | Joining rest => rest = [] /\ Harness.out s = o0
  | Printing => Harness.out s = o0
  | Returning => Harness.out s = String.append o0 (report g0)
  | Exited c => c = 0 /\ Harness.out s = String.append o0 (report g0)
  end.

(** The same outcome, of another type. *)
Definition result_map {A B : Type} (f : A -> B) (r : result A) : result B :=
  match r with
  | Ok a => Ok (f a)
  | Stuck => Stuck
  | Undef => Undef
  end.

(** The state [s] with its globals changed by [fg]. *)
Definition with_globals {G L : Type} (fg : G -> G) (s : Harness.state G L)
  : Harness.state G L :=
  {| Harness.glob := fg (Harness.glob s); Harness.threads := Harness.threads s;
     Harness.pc := Harness.pc s; Harness.out := Harness.out s |}.

(** The globals with [iterations] replaced by [k]. *)
Definition mutex_set_iterations (k : Z) (g : Mutex.globals) : Mutex.globals :=
  {| Mutex.threadCount := Mutex.threadCount g; Mutex.iterations := k;
     Mutex.counter := Mutex.counter g; Mutex.m := Mutex.m g |}.

Definition atomic_set_iterations (k : Z) (g : Atomic.globals) : Atomic.globals :=
  {| Atomic.threadCount := Atomic.threadCount g; Atomic.iterations := k;
     Atomic.counter := Atomic.counter g |}.

(** The worker is about to execute the write of [counter++]. *)
Definition at_write (l : Mutex.locals) : bool :=
  match Mutex.line l with Mutex.WriteCounter => true | _ => false end.

(** The writes of [counter++] executed in a schedule of the mutex
    program. *)
Definition mutex_writes (sched : list tid) (s : Mutex.state) : nat :=
  moves_from Mutex.threadCount Mutex.increment Mutex.entry Mutex.finished (seq 0)
    Mutex.report (fun _ l => at_write l) sched s.

(** Those of worker [j]: the rounds of its loop. *)
Definition mutex_writes_by (j : nat) (sched : list tid) (s : Mutex.state) : nat :=
  moves_from Mutex.threadCount Mutex.increment Mutex.entry Mutex.finished (seq 0)
    Mutex.report (fun k l => Nat.eqb k j && at_write l) sched s.

(** The calls of [increment()] executed in a schedule of the feature probe,
    by any worker. *)
Definition feature_calls (cplusplus : Z) (sched : list tid) (s : FeatureTest.state) : nat :=
  moves_from FeatureTest.thread_count FeatureTest.worker FeatureTest.entry
    FeatureTest.finished (seq 0) (FeatureTest.report cplusplus)
    (fun _ l => at_call l) sched s.

(** What a worker of the mutex program knows after its write: the counter
    is the value it has read plus one, and the string it builds from the
    counter is the decimal of that value. *)
Definition mutex_sees_own_write (g : Mutex.globals) (l : Mutex.locals) : Prop :=
  match Mutex.line l with
  | Mutex.ToString => Mutex.counter g = Mutex.tmp l + 1
  | Mutex.LoopIncr =>
      Mutex.counter g = Mutex.tmp l + 1 /\
      Mutex.memeSmth l = Int.to_string (Mutex.tmp l + 1)
  | _ => True
  end.

(** The workers of the mutex program that have returned. *)
Definition mutex_returned (ws : list Mutex.locals) : Z :=
  total (fun l => if Mutex.finished l then 1 else 0) ws.

(** The increments a worker has performed under the lock it still holds. *)
Definition mutex_in_progress (l : Mutex.locals) : Z :=
  if in_critical l then mutex_performed l else 0.

(** The increments come in blocks of [k]: the counter is [k] for every
    worker that has returned, plus what the owner of the mutex, if any, has
    performed so far. *)
Definition mutex_blocks (k : Z) (g : Mutex.globals) (ws : list Mutex.locals) : Prop :=
  match Mutex.m g with
  | None => Mutex.counter g = k * mutex_returned ws
  | Some h =>
      exists l, ws !! h = Some l /\ in_critical l = true /\
                0 <= mutex_performed l <= k /\
                Mutex.counter g = k * mutex_returned ws + mutex_performed l
  end.

(** [main] has left its second loop: every thread has been joined. *)
Definition joins_done (p : main_pc) : bool :=
  match p with
  | Printing | Returning | Exited _ => true
  | _ => false
  end.

(** * Properties *)

(** ** The model at work *)

(** Three threads of two iterations, one worker after the other. *)
Example atomic_serial_run :
  observe (Atomic.exec (serial 3 9) (Atomic.start 3 2)) =
  Some ({| Atomic.threadCount := 3; Atomic.iterations := 2; Atomic.counter := 6 |},
        String.append "Counter: 6" endl, Some 0).
Proof. vm_compute. reflexivity. Qed.

(** Two threads of one iteration whose moves alternate. *)
Example atomic_interleaved_run :
  observe (Atomic.exec
             [Main; Worker 0; Main; Worker 1; Worker 0; Worker 1; Worker 0; Worker 1;
              Worker 0; Worker 1; Worker 0; Worker 1; Main; Main; Main; Main; Main; Main]
             (Atomic.start 2 1)) =
  Some ({| Atomic.threadCount := 2; Atomic.iterations := 1; Atomic.counter := 2 |},
        String.append "Counter: 2" endl, Some 0).
Proof. vm_compute. reflexivity. Qed.

Example mutex_serial_run :
  observe (Mutex.exec (serial 3 13) (Mutex.start 3 2)) =
  Some ({| Mutex.threadCount := 3; Mutex.iterations := 2; Mutex.counter := 6;
           Mutex.m := None |},
        String.append "Counter: 6" endl, Some 0).
Proof. vm_compute. reflexivity. Qed.

(** A worker that finds the mutex taken cannot move. *)
Example mutex_second_worker_waits :
  Mutex.exec [Main; Main; Worker 1; Worker 0] (Mutex.start 2 1) = Stuck.
Proof. vm_compute. reflexivity. Qed.

(** [main] blocks in [join] while the thread it joins is running. *)
Example main_waits_in_join :
  Atomic.exec [Main; Main; Main; Main] (Atomic.start 2 1) = Stuck.
Proof. vm_compute. reflexivity. Qed.

(** The plain [counter++] is a read and a write: from a state no run
    reaches, in which two workers are inside their loops and neither owns
    the mutex, the two increments leave the counter at [1]. *)
Example increments_race_without_the_mutex :
  observe (Mutex.exec [Worker 0; Worker 1; Worker 0; Worker 1]
             {| Harness.glob := {| Mutex.threadCount := 2; Mutex.iterations := 1;
                                   Mutex.counter := 0; Mutex.m := None |};
                Harness.threads :=
                  [ {| Mutex.line := Mutex.ReadCounter; Mutex.i := 0; Mutex.tmp := 0;
                       Mutex.memeSmth := EmptyString |};
                    {| Mutex.line := Mutex.ReadCounter; Mutex.i := 0; Mutex.tmp := 0;
                       Mutex.memeSmth := EmptyString |} ];
                Harness.pc := Joining [0%nat; 1%nat];
                Harness.out := EmptyString |}) =
  Some ({| Mutex.threadCount := 2; Mutex.iterations := 1; Mutex.counter := 1;
           Mutex.m := None |},
        EmptyString, None).
Proof. vm_compute. reflexivity. Qed.

(** The feature probe compiled as C++17 and as C++20, one worker after the
    other. *)
Example feature_serial_run_cxx17 :
  observe (FeatureTest.exec 201703 (serial 5 3001) (FeatureTest.test_features 201703)) =
  Some ({| FeatureTest.counter := 5000 |},
        String.append "C++ Standard: 201703"
       (String.append endl
       (String.append "Final counter value: 5000" endl)),
        Some 0).
Proof. vm_compute. reflexivity. Qed.

Example feature_serial_run_cxx20 :
  observe (FeatureTest.exec 202002 (serial 5 3001) (FeatureTest.test_features 202002)) =
  Some ({| FeatureTest.counter := 5000 |},
        String.append "C++ Standard: 202002"
       (String.append endl
       (String.append "Final counter value: 5000"
       (String.append endl
       (String.append "Testing C++20 features:"
       (String.append endl
       (String.append "Numeric concept test: 84"
       (String.append endl
       (String.append "Ranges test - Even numbers: 2 4" endl)))))))),
        Some 0).
Proof. vm_compute. reflexivity. Qed.

(** ** Arithmetic of the 32-bit [int] *)

Lemma wrap_in_range (z : Z) : Int.in_range z -> Int.wrap z = z.
Proof.
  unfold Int.in_range, Int.INT_MIN, Int.INT_MAX, Int.wrap. intros Hz.
  rewrite Z.mod_small by lia. lia.
Qed.

Lemma wrap_range (z : Z) : Int.in_range (Int.wrap z).
Proof.
  unfold Int.in_range, Int.INT_MIN, Int.INT_MAX, Int.wrap.
  pose proof (Z.mod_pos_bound (z + 2147483648) 4294967296). lia.
Qed.

Lemma wrap_add_l (a b : Z) : Int.wrap (Int.wrap a + b) = Int.wrap (a + b).
Proof.
  unfold Int.wrap. f_equal.
  replace (((a + 2147483648) mod 4294967296 - 2147483648) + b + 2147483648)
    with ((a + 2147483648) mod 4294967296 + b) by lia.
  rewrite Zplus_mod_idemp_l. f_equal. lia.
Qed.

Lemma incr_Some (x v : Z) : Int.incr x = Some v <-> x < Int.INT_MAX /\ v = x + 1.
Proof.
  unfold Int.incr. destruct (Z.ltb_spec x Int.INT_MAX); split.
  - intros [= <-]. lia.
  - intros [_ ->]. reflexivity.
  - discriminate.
  - lia.
Qed.

(** ** Sums over the vector of threads *)

Section Total.

Context {L : Type}.
Variable f : L -> Z.

Abbreviation total := (total f).

Lemma total_app (ws ws' : list L) : total (ws ++ ws') = total ws + total ws'.
Proof. induction ws as [|w ws IH]; simpl; lia. Qed.

Lemma total_insert (ws : list L) (k : nat) (l l' : L) :
  ws !! k = Some l -> total (<[k:=l']> ws) = total ws - f l + f l'.
Proof.
  revert k. induction ws as [|w ws IH]; intros [|k] Hk; simpl in *; try discriminate.
  - injection Hk as ->. lia.
  - rewrite (IH k Hk). lia.
Qed.

Lemma total_bounds (lo hi : Z) (ws : list L) :
  (forall l, l ∈ ws -> lo <= f l <= hi) ->
  lo * Z.of_nat (length ws) <= total ws <= hi * Z.of_nat (length ws).
Proof.
  induction ws as [|w ws IH]; intros H; simpl length; simpl total; [lia|].
  assert (lo <= f w <= hi) by (apply H; left).
  assert (lo * Z.of_nat (length ws) <= total ws <= hi * Z.of_nat (length ws))
    by (apply IH; intros l Hl; apply H; right; exact Hl).
  lia.
Qed.

Lemma total_nonneg (ws : list L) :
  (forall l, l ∈ ws -> 0 <= f l) -> 0 <= total ws.
Proof.
  induction ws as [|w ws IH]; intros H; simpl; [lia|].
  assert (0 <= f w) by (apply H; left).
  assert (0 <= total ws) by (apply IH; intros l Hl; apply H; right; exact Hl).
  lia.
Qed.

Lemma total_below (hi : Z) (ws : list L) (j : nat) (l : L) :
  (forall l0, l0 ∈ ws -> f l0 <= hi) -> ws !! j = Some l -> f l < hi ->
  total ws < hi * Z.of_nat (length ws).
Proof.
  revert j. induction ws as [|w ws IH]; intros [|j] H Hj Hl; simpl in Hj; try discriminate;
    simpl length; simpl total.
  - injection Hj as ->.
    assert (total ws <= hi * Z.of_nat (length ws)).
    { clear -H. induction ws as [|w' ws IH]; simpl length; simpl total; [lia|].
      assert (f w' <= hi) by (apply H; right; left).
      assert (total ws <= hi * Z.of_nat (length ws)).
      { apply IH. intros l0 Hl0. apply H. inversion Hl0; subst; [left|right; right; assumption]. }
      lia. }
    lia.
  - assert (f w <= hi) by (apply H; left).
    assert (total ws < hi * Z.of_nat (length ws)).
    { apply (IH j); [|assumption|assumption]. intros l0 Hl0. apply H. right. exact Hl0. }
    lia.
Qed.

Lemma total_const (c : Z) (ws : list L) :
  (forall l, l ∈ ws -> f l = c) -> total ws = c * Z.of_nat (length ws).
Proof.
  intros H. pose proof (total_bounds c c ws) as Hb.
  assert (forall l, l ∈ ws -> c <= f l <= c) by (intros l Hl; rewrite (H l Hl); lia).
  specialize (Hb H0). lia.
Qed.

End Total.

(** ** Whole runs *)

Lemma every_run_weaken {G L : Type}
    (exec : list tid -> Harness.state G L -> result (Harness.state G L))
    (s0 : Harness.state G L) (Q Q' : Harness.state G L -> Prop) :
  every_run exec s0 Q ->
  (forall sched s, exec sched s0 = Ok s -> Harness.terminated s -> Q s -> Q' s) ->
  every_run exec s0 Q'.
Proof.
  intros (H1 & H2 & H3 & H4) HQ. unfold every_run. split_and!; try assumption.
  intros sched s Hs Ht. eapply HQ; eauto.
Qed.

(** A run that has terminated exists. *)
Lemma every_run_witness {G L : Type}
    (exec : list tid -> Harness.state G L -> result (Harness.state G L))
    (s0 : Harness.state G L) (Q : Harness.state G L -> Prop) :
  exec [] s0 = Ok s0 -> every_run exec s0 Q ->
  exists sched s, exec sched s0 = Ok s /\ Harness.terminated s /\ Q s.
Proof.
  intros H0 (H1 & _ & _ & H4). destruct (H1 [] s0 H0) as (sched & s & Hs & Ht).
  exists sched, s. simpl in Hs. eauto.
Qed.

(** ** Proof rules for the thread harness *)

Section Rules.

Context {G L : Type}.
Variable thread_count : G -> Z.
Variable body : nat -> G -> L -> result (G * L).
Variable entry : L.
Variable finished : L -> bool.
Variable join_order : nat -> list nat.
Variable report : G -> string.

Abbreviation state := (Harness.state G L).
Abbreviation main_step := (Harness.main_step thread_count entry finished join_order report).
Abbreviation worker_step := (Harness.worker_step body).
Abbreviation step := (Harness.step thread_count body entry finished join_order report).
Abbreviation exec := (Harness.exec thread_count body entry finished join_order report).
Abbreviation local_of := (local_of entry).
Abbreviation moves_from := (moves_from thread_count body entry finished join_order report).

Lemma exec_app (sched1 sched2 : list tid) (s : state) :
  exec (sched1 ++ sched2) s =
  match exec sched1 s with
  | Ok s' => exec sched2 s'
  | Stuck => Stuck
  | Undef => Undef
  end.
Proof.
  revert s. induction sched1 as [|t sched1 IH]; intros s; simpl; [reflexivity|].
  destruct (step t s); auto.
Qed.

Lemma exec_prefix (sched1 sched2 : list tid) (s s' : state) :
  exec (sched1 ++ sched2) s = Ok s' -> exists s1, exec sched1 s = Ok s1 /\ exec sched2 s1 = Ok s'.
Proof.
  rewrite exec_app. destruct (exec sched1 s) as [s1| |]; try discriminate. eauto.
Qed.

(** What a move of a worker touches: the globals as its body says, and its
    own entry of the vector. *)
Lemma worker_step_Ok (k : nat) (s s' : state) :
  worker_step k s = Ok s' ->
  exists l g' l',
    Harness.threads s !! k = Some l /\ body k (Harness.glob s) l = Ok (g', l') /\
    s' = {| Harness.glob := g'; Harness.threads := <[k:=l']> (Harness.threads s);
            Harness.pc := Harness.pc s; Harness.out := Harness.out s |}.
Proof.
  unfold Harness.worker_step. destruct (Harness.threads s !! k) as [l|]; [|discriminate].
  destruct (body k (Harness.glob s) l) as [[g' l']| |] eqn:Eb; try discriminate.
  intros [= <-]. exists l, g', l'. auto.
Qed.

(** What a move of [main] touches: never the globals, never a thread that
    exists. *)
Lemma main_step_frame (s s' : state) :
  main_step s = Ok s' ->
  Harness.glob s' = Harness.glob s /\
  (Harness.threads s' = Harness.threads s \/
   Harness.threads s' = Harness.threads s ++ [entry]).
Proof.
  unfold Harness.main_step. intros H.
  destruct (Harness.pc s) as [i|[|k rest]| | |c];
    repeat match type of H with
           | context [if ?b then _ else _] => destruct b
           | context [match ?o with Some _ => _ | None => _ end] => destruct o
           end;
    try discriminate; injection H as <-; simpl; auto.
Qed.

(** *** Counting the moves of a schedule *)

Lemma local_of_main_step (j : nat) (s s' : state) :
  main_step s = Ok s' -> local_of j s' = local_of j s.
Proof.
  intros H. apply main_step_frame in H as [_ [H|H]]; unfold local_of; rewrite H; [reflexivity|].
  destruct (Harness.threads s !! j) as [l|] eqn:Hj.
  - rewrite (lookup_app_l_Some _ _ _ _ Hj). reflexivity.
  - apply lookup_ge_None in Hj.
    destruct (decide (j = length (Harness.threads s))) as [->|Hne].
    + rewrite list_lookup_middle by reflexivity. reflexivity.
    + rewrite lookup_ge_None_2; [reflexivity|]. rewrite length_app. simpl. lia.
Qed.

Lemma local_of_Some (k : nat) (s : state) (l : L) :
  Harness.threads s !! k = Some l -> local_of k s = l.
Proof. unfold local_of. intros ->. reflexivity. Qed.

Lemma local_of_updated (k : nat) (s : state) (l l' : L) (g' : G) :
  Harness.threads s !! k = Some l ->
  local_of k {| Harness.glob := g'; Harness.threads := <[k:=l']> (Harness.threads s);
                Harness.pc := Harness.pc s; Harness.out := Harness.out s |} = l'.
Proof.
  intros Hk. unfold local_of. simpl.
  rewrite list_lookup_insert_eq by (eapply lookup_lt_Some; eauto). reflexivity.
Qed.

Lemma local_of_other (k j : nat) (s : state) (l' : L) (g' : G) :
  k <> j ->
  local_of j {| Harness.glob := g'; Harness.threads := <[k:=l']> (Harness.threads s);
                Harness.pc := Harness.pc s; Harness.out := Harness.out s |} = local_of j s.
Proof.
  intros Hne. unfold local_of. simpl. rewrite list_lookup_insert_ne by assumption. reflexivity.
Qed.

Section Counting.

Variable P : nat -> L -> bool.

(** A quantity of the local state that grows by one in the moves counted
    and is kept by the others counts them. *)
Variable phi : L -> Z.
Variable j : nat.
Hypothesis phi_body : forall g l g' l',
  body j g l = Ok (g', l') -> phi l' = phi l + (if P j l then 1 else 0).

Lemma local_count (sched : list tid) (s s' : state) :
  exec sched s = Ok s' ->
  phi (local_of j s') =
  phi (local_of j s) + Z.of_nat (moves_from (fun k l => Nat.eqb k j && P k l) sched s).
Proof.
  revert s. induction sched as [|t sched IH]; intros s H; simpl in *.
  - injection H as <-. lia.
  - destruct (step t s) as [s1| |] eqn:E; try discriminate.
    rewrite (IH s1 H), Nat2Z.inj_add. destruct t as [|k]; simpl in E.
    + rewrite (local_of_main_step j s s1 E). simpl. lia.
    + apply worker_step_Ok in E as (l & g' & l' & Hk & Hb & ->).
      simpl. destruct (Nat.eqb_spec k j) as [->|Hne]; simpl.
      * rewrite (local_of_updated j s l l' g' Hk), (local_of_Some j s l Hk).
        rewrite (phi_body _ _ _ _ Hb). destruct (P j l); lia.
      * rewrite (local_of_other k j s l' g' Hne). lia.
Qed.

(** The same for a quantity of the globals, up to the wrap-around of the
    [int]. *)
Variable psi : G -> Z.
Hypothesis psi_body : forall k g l g' l',
  body k g l = Ok (g', l') ->
  Int.wrap (psi g') = Int.wrap (psi g + (if P k l then 1 else 0)).

Lemma global_count (sched : list tid) (s s' : state) :
  exec sched s = Ok s' ->
  Int.wrap (psi (Harness.glob s')) =
  Int.wrap (psi (Harness.glob s) + Z.of_nat (moves_from P sched s)).
Proof.
  revert s. induction sched as [|t sched IH]; intros s H; simpl in *.
  - injection H as <-. f_equal. lia.
  - destruct (step t s) as [s1| |] eqn:E; try discriminate.
    rewrite (IH s1 H), Nat2Z.inj_add. destruct t as [|k]; simpl in E.
    + apply main_step_frame in E as [-> _]. f_equal; simpl; lia.
    + apply worker_step_Ok in E as (l & g' & l' & Hk & Hb & ->). simpl.
      rewrite (local_of_Some k s l Hk).
      rewrite <- wrap_add_l, (psi_body _ _ _ _ _ Hb), wrap_add_l.
      f_equal. destruct (P k l); lia.
Qed.

End Counting.

(** *** The invariant rule

    [n] is the number of threads the program creates, [o0] what is on
    standard output when the harness starts, and [I] a property of the
    globals and the vector of threads that creating a thread and every move
    of a worker keep. *)

Variable n : nat.
Variable o0 : string.
Variable I : G -> list L -> Prop.

Hypothesis I_count : forall g ws, I g ws -> thread_count g = Z.of_nat n.
Hypothesis I_entry : forall g ws, I g ws -> (length ws < n)%nat -> I g (ws ++ [entry]).
Hypothesis I_body : forall g ws k l g' l',
  I g ws -> (length ws <= n)%nat -> ws !! k = Some l -> body k g l = Ok (g', l') ->
  I g' (<[k:=l']> ws).
Hypothesis finished_stuck : forall k g l, finished l = true -> body k g l = Stuck.
Hypothesis order_perm : join_order n ≡ₚ seq 0 n.

Abbreviation joined := (joined finished).
Abbreviation all_finished := (all_finished finished).
Abbreviation main_inv := (main_inv finished join_order report n o0).
Abbreviation inv := (inv finished join_order report n o0 I).

Lemma main_inv_length (s : state) : main_inv s -> (length (Harness.threads s) <= n)%nat.
Proof. unfold main_inv. destruct (Harness.pc s); intros H; lia. Qed.

Lemma joined_all (ws : list L) :
  length ws = n -> joined ws (join_order n) -> all_finished ws.
Proof.
  intros Hlen Hj l Hl. apply list_elem_of_lookup in Hl as [k Hk].
  assert (k ∈ join_order n) as Hin.
  { rewrite order_perm. apply elem_of_seq. apply lookup_lt_Some in Hk. lia. }
  destruct (Hj k Hin) as (l' & Hk' & Hfin). congruence.
Qed.

Lemma inv_main_step (s s' : state) : inv s -> main_step s = Ok s' -> inv s'.
Proof.
  unfold inv, main_inv, Harness.main_step. intros [HI Hm] H.
  pose proof (I_count _ _ HI) as Hc.
  destruct (Harness.pc s) as [i|[|k rest]| | |c].
  - destruct Hm as (-> & Hle & Ho).
    destruct (Z.ltb_spec (Z.of_nat (length (Harness.threads s))) (thread_count (Harness.glob s))).
    + destruct (Int.incr _) as [i'|] eqn:Ei; [|discriminate].
      apply incr_Some in Ei as [_ ->]. injection H as <-. simpl.
      rewrite length_app. simpl. split; [apply I_entry; [assumption|lia]|].
      repeat split; [lia|lia|assumption].
    + injection H as <-. simpl. assert (length (Harness.threads s) = n) as Hn by lia.
      rewrite Hn. repeat split; try assumption.
      exists []. split; [reflexivity|]. intros k Hk. inversion Hk.
  - injection H as <-. simpl. destruct Hm as (Hn & Ho & done & Hd & Hj).
    rewrite app_nil_r in Hd. subst done. repeat split; try assumption.
    apply joined_all; assumption.
  - destruct Hm as (Hn & Ho & done & Hd & Hj).
    destruct (Harness.threads s !! k) as [l|] eqn:Hk; [|discriminate].
    destruct (finished l) eqn:Hf; [|discriminate]. injection H as <-. simpl.
    repeat split; try assumption. exists (done ++ [k]). split.
    + rewrite Hd, <- app_assoc. reflexivity.
    + intros k' [Hk'|Hk']%elem_of_app; [auto|].
      apply list_elem_of_singleton in Hk' as ->. eauto.
  - injection H as <-. simpl. destruct Hm as (Hn & Ho & Hf). rewrite Ho. auto.
  - injection H as <-. simpl. auto.
  - discriminate.
Qed.

Lemma inv_worker_step (k : nat) (s s' : state) : inv s -> worker_step k s = Ok s' -> inv s'.
Proof.
  intros [HI Hm] H. apply worker_step_Ok in H as (l & g' & l' & Hk & Hb & ->).
  assert (finished l = false) as Hnf.
  { destruct (finished l) eqn:Hf; [|reflexivity].
    rewrite (finished_stuck k (Harness.glob s) l Hf) in Hb. discriminate. }
  assert (all_finished (Harness.threads s) -> False) as Habs.
  { intros Hall. rewrite (Hall l) in Hnf; [discriminate|].
    apply list_elem_of_lookup. eauto. }
  split; simpl.
  - eapply I_body; eauto using main_inv_length.
  - unfold main_inv in *. simpl.
    destruct (Harness.pc s) as [i|rest| | |c]; rewrite ?length_insert.
    + exact Hm.
    + destruct Hm as (Hn & Ho & done & Hd & Hj). repeat split; try assumption.
      exists done. split; [assumption|]. intros j Hin.
      destruct (Hj j Hin) as (lj & Hlj & Hfj). exists lj. split; [|assumption].
      rewrite list_lookup_insert_ne; [assumption|]. intros <-. congruence.
    + exfalso. tauto.
    + exfalso. tauto.
    + exfalso. tauto.
Qed.

Lemma inv_step (t : tid) (s s' : state) : inv s -> step t s = Ok s' -> inv s'.
Proof. destruct t; [apply inv_main_step | apply inv_worker_step]. Qed.

Lemma inv_exec (sched : list tid) (s s' : state) : inv s -> exec sched s = Ok s' -> inv s'.
Proof.
  revert s. induction sched as [|t sched IH]; intros s Hs H; simpl in H.
  - injection H as <-. exact Hs.
  - destruct (step t s) as [s1| |] eqn:E; try discriminate. eauto using inv_step.
Qed.

(** A program that has terminated has returned [0], has created [n]
    threads, all of them finished, and has printed its report once. *)
Lemma inv_terminated (s : state) :
  inv s -> Harness.terminated s ->
  Harness.exit_code s = Some 0 /\
  length (Harness.threads s) = n /\
  all_finished (Harness.threads s) /\
  Harness.out s = String.append o0 (report (Harness.glob s)).
Proof.
  intros [_ Hm] [c Hc]. unfold main_inv, Harness.exit_code in *. rewrite Hc in *.
  destruct Hm as (-> & ? & ? & ?). auto.
Qed.


(** *** The termination rule

    [wm l] bounds the moves a worker in state [l] can still make. *)

Variable wm : L -> Z.

Hypothesis wm_entry : 0 <= wm entry.
Hypothesis wm_nonneg : forall g ws l, I g ws -> l ∈ ws -> 0 <= wm l.
Hypothesis wm_body : forall g ws k l g' l',
  I g ws -> (length ws <= n)%nat -> ws !! k = Some l -> body k g l = Ok (g', l') ->
  wm l' < wm l.

Abbreviation main_left := (main_left entry n wm).
Abbreviation moves_left := (moves_left entry n wm).

Lemma order_length : length (join_order n) = n.
Proof. rewrite order_perm. apply length_seq. Qed.

Lemma moves_left_nonneg (s : state) : inv s -> 0 <= moves_left s.
Proof.
  intros [HI Hm]. unfold moves_left.
  assert (0 <= total wm (Harness.threads s)) by (apply total_nonneg; eauto).
  unfold main_inv, main_left in *. destruct (Harness.pc s); try lia.
  destruct Hm as (_ & Hle & _). nia.
Qed.

Lemma moves_left_step (t : tid) (s s' : state) :
  inv s -> step t s = Ok s' -> moves_left s' < moves_left s.
Proof.
  intros [HI Hm] H. pose proof (I_count _ _ HI) as Hc. destruct t as [|k]; simpl in H.
  - unfold Harness.main_step in H. unfold moves_left, main_inv in *.
    destruct (Harness.pc s) as [i|[|j rest]| | |c].
    + destruct Hm as (-> & Hle & Ho).
      destruct (Z.ltb_spec (Z.of_nat (length (Harness.threads s))) (thread_count (Harness.glob s))).
      * destruct (Int.incr _) as [i'|]; [|discriminate]. injection H as <-. simpl.
        rewrite total_app, length_app. simpl. nia.
      * injection H as <-. simpl. assert (length (Harness.threads s) = n) as -> by lia.
        rewrite order_length. lia.
    + injection H as <-. simpl. lia.
    + destruct (Harness.threads s !! j) as [l|]; [|discriminate].
      destruct (finished l); [|discriminate]. injection H as <-. simpl. lia.
    + injection H as <-. simpl. lia.
    + injection H as <-. simpl. lia.
    + discriminate.
  - apply worker_step_Ok in H as (l & g' & l' & Hk & Hb & ->).
    pose proof (main_inv_length s Hm) as Hle.
    pose proof (wm_body _ _ _ _ _ _ HI Hle Hk Hb).
    unfold moves_left. simpl. rewrite (total_insert wm _ _ l l' Hk), length_insert. lia.
Qed.

(** No schedule is longer than the measure of the state it starts in. *)
Lemma exec_bounded (sched : list tid) (s s' : state) :
  inv s -> exec sched s = Ok s' -> moves_left s' + Z.of_nat (length sched) <= moves_left s.
Proof.
  revert s. induction sched as [|t sched IH]; intros s Hs H; simpl in H.
  - injection H as <-. simpl. lia.
  - destruct (step t s) as [s1| |] eqn:E; try discriminate.
    pose proof (moves_left_step t s s1 Hs E).
    pose proof (IH s1 (inv_step t s s1 Hs E) H). simpl length. lia.
Qed.

(** *** The progress rule

    While a thread is still running, some thread can move; nothing a
    thread does is undefined. *)

Hypothesis n_int : Z.of_nat n <= Int.INT_MAX.
Hypothesis I_live : forall g ws,
  I g ws -> (length ws <= n)%nat -> (exists l, l ∈ ws /\ finished l = false) ->
  exists k l g' l', ws !! k = Some l /\ body k g l = Ok (g', l').

Lemma spawn_incr (i : Z) : i < Z.of_nat n -> Int.incr i = Some (i + 1).
Proof. intros Hi. apply incr_Some. lia. Qed.

Lemma worker_can_step (k : nat) (s : state) (l l' : L) (g' : G) :
  Harness.threads s !! k = Some l -> body k (Harness.glob s) l = Ok (g', l') ->
  exists s', step (Worker k) s = Ok s'.
Proof.
  intros Hk Hb. simpl. unfold Harness.worker_step. rewrite Hk, Hb. eauto.
Qed.

Lemma progress (s : state) :
  inv s -> ~ Harness.terminated s -> exists t s', step t s = Ok s'.
Proof.
  intros [HI Hm] Hnt. pose proof (I_count _ _ HI) as Hc.
  pose proof (main_inv_length s Hm) as Hle.
  unfold main_inv in Hm.
  destruct (Harness.pc s) as [i|[|j rest]| | |c] eqn:Hpc.
  - exists Main. simpl. unfold Harness.main_step. rewrite Hpc.
    destruct (Z.ltb_spec i (thread_count (Harness.glob s))); [|eauto].
    rewrite spawn_incr by lia. eauto.
  - exists Main. simpl. unfold Harness.main_step. rewrite Hpc. eauto.
  - destruct Hm as (Hn & Ho & done & Hd & Hj).
    assert (j ∈ join_order n) as Hin by (rewrite Hd; apply elem_of_app; right; left).
    rewrite order_perm in Hin. apply elem_of_seq in Hin.
    destruct (lookup_lt_is_Some_2 (Harness.threads s) j) as [l Hl]; [lia|].
    destruct (finished l) eqn:Hf.
    + exists Main. simpl. unfold Harness.main_step. rewrite Hpc, Hl, Hf. eauto.
    + destruct (I_live _ _ HI Hle) as (k & lk & g' & l' & Hk & Hb).
      { exists l. split; [|assumption]. apply list_elem_of_lookup. eauto. }
      exists (Worker k). eapply worker_can_step; eauto.
  - exists Main. simpl. unfold Harness.main_step. rewrite Hpc. eauto.
  - exists Main. simpl. unfold Harness.main_step. rewrite Hpc. eauto.
  - exfalso. apply Hnt. exists c. exact Hpc.
Qed.

(** Every state the program reaches leads to termination. *)
Lemma completes (s : state) :
  inv s -> exists sched s', exec sched s = Ok s' /\ Harness.terminated s'.
Proof.
  intros Hs. pose proof (moves_left_nonneg s Hs) as H0.
  remember (Z.to_nat (moves_left s)) as fuel eqn:Hfuel.
  assert (moves_left s <= Z.of_nat fuel) as Hle by lia. clear Hfuel.
  revert s Hs H0 Hle. induction fuel as [|fuel IH]; intros s Hs H0 Hle.
  - destruct (Harness.pc s) as [i|rest| | |c] eqn:Hpc;
      try (destruct (progress s Hs) as (t & s1 & Ht);
           [intros [c Hc]; congruence|];
           pose proof (moves_left_step t s s1 Hs Ht);
           pose proof (moves_left_nonneg s1 (inv_step t s s1 Hs Ht)); lia).
    exists [], s. split; [reflexivity|]. exists c. exact Hpc.
  - destruct (Harness.pc s) as [i|rest| | |c] eqn:Hpc;
      try (destruct (progress s Hs) as (t & s1 & Ht);
           [intros [c Hc]; congruence|];
           pose proof (moves_left_step t s s1 Hs Ht);
           pose proof (inv_step t s s1 Hs Ht) as Hs1;
           destruct (IH s1 Hs1 (moves_left_nonneg s1 Hs1)) as (sched & s' & He & Ht');
           [lia|];
           exists (t :: sched), s'; simpl; rewrite Ht; auto).
    exists [], s. split; [reflexivity|]. exists c. exact Hpc.
Qed.

Hypothesis I_safe : forall g ws k l,
  I g ws -> (length ws <= n)%nat -> ws !! k = Some l -> body k g l <> Undef.

Lemma step_defined (t : tid) (s : state) : inv s -> step t s <> Undef.
Proof.
  intros [HI Hm]. pose proof (I_count _ _ HI) as Hc.
  pose proof (main_inv_length s Hm) as Hle.
  destruct t as [|k]; simpl.
  - unfold Harness.main_step, main_inv in *.
    destruct (Harness.pc s) as [i|[|j rest]| | |c]; try discriminate.
    + destruct (Z.ltb_spec i (thread_count (Harness.glob s))); [|discriminate].
      rewrite spawn_incr by lia. discriminate.
    + destruct (Harness.threads s !! j) as [l|]; [|discriminate].
      destruct (finished l); discriminate.
  - unfold Harness.worker_step.
    destruct (Harness.threads s !! k) as [l|] eqn:Hk; [|discriminate].
    pose proof (I_safe _ _ _ _ HI Hle Hk).
    destruct (body k (Harness.glob s) l) as [[g' l']| |]; congruence.
Qed.

Lemma exec_defined (sched : list tid) (s : state) : inv s -> exec sched s <> Undef.
Proof.
  revert s. induction sched as [|t sched IH]; intros s Hs; simpl; [discriminate|].
  pose proof (step_defined t s Hs).
  destruct (step t s) as [s1| |] eqn:E; try congruence.
  apply IH. eapply inv_step; eauto.
Qed.

(** *** The rule for whole runs *)

Lemma inv_init (g0 : G) : I g0 [] -> inv (Harness.init g0 o0).
Proof. intros H0. split; [exact H0|]. unfold main_inv; simpl. split_and!; (reflexivity || lia). Qed.

Lemma every_run_rule (g0 : G) (Q : state -> Prop) :
  I g0 [] ->
  (forall s, inv s -> Harness.terminated s -> Q s) ->
  every_run exec (Harness.init g0 o0) Q.
Proof.
  intros H0 HQ. pose proof (inv_init g0 H0) as Hi. unfold every_run. split_and!.
  - intros sched s Hs. pose proof (inv_exec sched _ _ Hi Hs) as His.
    destruct (completes s His) as (sched' & s' & Hs' & Ht).
    exists sched', s'. split; [|exact Ht]. rewrite exec_app, Hs. exact Hs'.
  - exists (Z.to_nat (moves_left (Harness.init g0 o0))). intros sched s Hs.
    pose proof (exec_bounded sched _ _ Hi Hs).
    pose proof (moves_left_nonneg s (inv_exec sched _ _ Hi Hs)). lia.
  - intros sched. apply exec_defined. exact Hi.
  - intros sched s Hs Ht. apply HQ; [|exact Ht]. exact (inv_exec sched _ _ Hi Hs).
Qed.

End Rules.

Lemma elem_of_insert_inv {A : Type} (ws : list A) (j : nat) (x y : A) :
  x ∈ <[j:=y]> ws -> x = y \/ x ∈ ws.
Proof.
  intros [i Hi]%list_elem_of_lookup. destruct (decide (j = i)) as [->|Hne].
  - left. rewrite list_lookup_insert_eq in Hi by (apply lookup_lt_Some in Hi; rewrite length_insert in Hi; exact Hi).
    congruence.
  - right. rewrite list_lookup_insert_ne in Hi by assumption. apply list_elem_of_lookup. eauto.
Qed.

(** ** The atomic counter (src/src/atomic/main.cpp) *)

Section AtomicProgram.

Variable n : nat.
Variable k : Z.
Hypothesis k_range : 0 <= k <= Int.INT_MAX.

Lemma atomic_inv_start : atomic_inv n k (Atomic.Globals (Z.of_nat n) k 0) [].
Proof. unfold atomic_inv. split_and!; try reflexivity. intros l Hl. inversion Hl. Qed.

Lemma atomic_inv_count g ws : atomic_inv n k g ws -> Atomic.threadCount g = Z.of_nat n.
Proof. intros H. apply H. Qed.

Lemma atomic_inv_entry g ws :
  atomic_inv n k g ws -> (length ws < n)%nat -> atomic_inv n k g (ws ++ [Atomic.entry]).
Proof.
  intros (Hc & Hit & Hcnt & Hloc) _. unfold atomic_inv. split_and!; try assumption.
  - rewrite total_app. simpl. rewrite Hcnt. f_equal. unfold atomic_performed. simpl. lia.
  - intros l [H|H]%elem_of_app; [apply Hloc, H|].
    apply list_elem_of_singleton in H as ->. unfold atomic_local_ok. simpl. lia.
Qed.

Lemma atomic_inv_body g ws j l g' l' :
  atomic_inv n k g ws -> (length ws <= n)%nat -> ws !! j = Some l ->
  Atomic.increment j g l = Ok (g', l') -> atomic_inv n k g' (<[j:=l']> ws).
Proof.
  intros (Hc & Hit & Hcnt & Hloc) _ Hj Hb.
  assert (atomic_local_ok k l) as Hl by (apply Hloc, list_elem_of_lookup; eauto).
  unfold atomic_inv. rewrite (total_insert _ _ _ l l' Hj).
  destruct l as [ln i ms], g as [tc it c].
  unfold Atomic.increment, atomic_local_ok, atomic_performed in *. simpl in *.
  destruct ln; simpl in *;
    repeat match type of Hb with
           | context [Z.ltb ?a ?b] => destruct (Z.ltb_spec a b)
           | context [Int.incr ?a] =>
               let E := fresh "E" in
               destruct (Int.incr a) eqn:E; [apply incr_Some in E as [? ->]|]
           end;
    try discriminate; injection Hb as <- <-; simpl;
    (split; [assumption|]); (split; [assumption|]);
    (split; [| intros l0 [->|Hin]%elem_of_insert_inv; [simpl; lia | apply Hloc, Hin]]).
  all: try (rewrite Hcnt; f_equal; lia).
  unfold Int.fetch_add. rewrite Hcnt, wrap_add_l. f_equal. lia.
Qed.

Lemma atomic_finished_stuck j g l :
  Atomic.finished l = true -> Atomic.increment j g l = Stuck.
Proof.
  unfold Atomic.finished, Atomic.increment. destruct (Atomic.line l); (discriminate || reflexivity).
Qed.

Lemma atomic_left_entry : 0 <= atomic_left k Atomic.entry.
Proof. unfold atomic_left. simpl. lia. Qed.

Lemma atomic_left_nonneg g ws l : atomic_inv n k g ws -> l ∈ ws -> 0 <= atomic_left k l.
Proof.
  intros (_ & _ & _ & Hloc) Hl. specialize (Hloc l Hl).
  unfold atomic_local_ok, atomic_left in *. destruct (Atomic.line l); lia.
Qed.

(** What a worker does in each of its positions, under the invariant. *)
Lemma atomic_body_cases g l j :
  Atomic.iterations g = k -> atomic_local_ok k l ->
  Atomic.finished l = true \/
  exists g' l', Atomic.increment j g l = Ok (g', l') /\ atomic_left k l' < atomic_left k l.
Proof.
  intros Hit Hl. destruct l as [ln i ms], g as [tc it c].
  unfold Atomic.increment, Atomic.finished, atomic_local_ok, atomic_left in *. simpl in *.
  subst it. destruct ln; simpl; auto; right.
  - destruct (Z.ltb_spec i k); eexists _, _; (split; [reflexivity|simpl; lia]).
  - eexists _, _; (split; [reflexivity|simpl; lia]).
  - eexists _, _; (split; [reflexivity|simpl; lia]).
  - assert (Int.incr i = Some (i + 1)) as -> by (apply incr_Some; lia).
    eexists _, _; (split; [reflexivity|simpl; lia]).
Qed.

Lemma atomic_left_body g ws j l g' l' :
  atomic_inv n k g ws -> (length ws <= n)%nat -> ws !! j = Some l ->
  Atomic.increment j g l = Ok (g', l') -> atomic_left k l' < atomic_left k l.
Proof.
  intros (_ & Hit & _ & Hloc) _ Hj Hb.
  assert (atomic_local_ok k l) as Hl by (apply Hloc, list_elem_of_lookup; eauto).
  destruct (atomic_body_cases g l j Hit Hl) as [Hf|(g1 & l1 & Hb1 & Hlt)].
  - rewrite (atomic_finished_stuck j g l Hf) in Hb. discriminate.
  - congruence.
Qed.

(** An atomic worker never waits. *)
Lemma atomic_live g ws :
  atomic_inv n k g ws -> (length ws <= n)%nat ->
  (exists l, l ∈ ws /\ Atomic.finished l = false) ->
  exists j l g' l', ws !! j = Some l /\ Atomic.increment j g l = Ok (g', l').
Proof.
  intros (_ & Hit & _ & Hloc) _ (l & Hin & Hnf).
  pose proof (Hloc l Hin) as Hl. apply list_elem_of_lookup in Hin as [j Hj].
  destruct (atomic_body_cases g l j Hit Hl) as [Hf|(g1 & l1 & Hb1 & _)]; [congruence|].
  eauto 6.
Qed.

Lemma atomic_safe g ws j l :
  atomic_inv n k g ws -> (length ws <= n)%nat -> ws !! j = Some l ->
  Atomic.increment j g l <> Undef.
Proof.
  intros (_ & Hit & _ & Hloc) _ Hj.
  assert (atomic_local_ok k l) as Hl by (apply Hloc, list_elem_of_lookup; eauto).
  destruct (atomic_body_cases g l j Hit Hl) as [Hf|(g1 & l1 & Hb1 & _)].
  - rewrite (atomic_finished_stuck j g l Hf). discriminate.
  - rewrite Hb1. discriminate.
Qed.

(** When every worker has returned, the increments performed are [k] for
    each of them. *)
Lemma atomic_total_finished g ws :
  atomic_inv n k g ws -> all_finished Atomic.finished ws ->
  total atomic_performed ws = k * Z.of_nat (length ws).
Proof.
  intros (_ & _ & _ & Hloc) Hall. apply total_const. intros l Hl.
  pose proof (Hloc l Hl) as Hok. pose proof (Hall l Hl) as Hf.
  unfold atomic_local_ok, atomic_performed, Atomic.finished in *.
  destruct (Atomic.line l); try discriminate. lia.
Qed.

(** The increments performed never exceed [k] for each worker. *)
Lemma atomic_total_bounds g ws :
  atomic_inv n k g ws -> 0 <= total atomic_performed ws <= k * Z.of_nat (length ws).
Proof.
  intros (_ & _ & _ & Hloc).
  pose proof (total_bounds atomic_performed 0 k ws) as Hb. rewrite Z.mul_0_l in Hb.
  apply Hb. intros l Hl. specialize (Hloc l Hl).
  unfold atomic_local_ok, atomic_performed in *. destruct (Atomic.line l); lia.
Qed.

Variable order : nat -> list nat.
Hypothesis order_perm : order n ≡ₚ seq 0 n.
Hypothesis n_int : Z.of_nat n <= Int.INT_MAX.

Abbreviation atomic_harness_inv :=
  (inv Atomic.finished order Atomic.report n EmptyString (atomic_inv n k)).

(** Every state the program reaches satisfies the invariants. *)
Lemma atomic_reach_inv (sched : list tid) (s : Atomic.state) :
  Atomic.exec_in order sched (Atomic.start (Z.of_nat n) k) = Ok s -> atomic_harness_inv s.
Proof.
  apply (inv_exec Atomic.threadCount Atomic.increment Atomic.entry Atomic.finished order
           Atomic.report n EmptyString (atomic_inv n k)
           atomic_inv_count atomic_inv_entry atomic_inv_body atomic_finished_stuck order_perm).
  apply inv_init. apply atomic_inv_start.
Qed.

(** Every run of the atomic program terminates, and ends with [Q] when [Q]
    follows from the invariants. *)
Lemma atomic_every_run (Q : Atomic.state -> Prop) :
  (forall s, atomic_harness_inv s -> Harness.terminated s -> Q s) ->
  every_run (Atomic.exec_in order) (Atomic.start (Z.of_nat n) k) Q.
Proof.
  intros HQ.
  apply (every_run_rule Atomic.threadCount Atomic.increment Atomic.entry Atomic.finished order
           Atomic.report n EmptyString (atomic_inv n k)
           atomic_inv_count atomic_inv_entry atomic_inv_body atomic_finished_stuck order_perm
           (atomic_left k) atomic_left_entry atomic_left_nonneg atomic_left_body
           n_int atomic_live atomic_safe).
  - apply atomic_inv_start.
  - exact HQ.
Qed.

(** What holds when the atomic program has terminated. *)
Lemma atomic_final (s : Atomic.state) :
  atomic_harness_inv s -> Harness.terminated s ->
  Atomic.counter (Harness.glob s) = Int.wrap (Z.of_nat n * k) /\
  Harness.out s = Atomic.report (Harness.glob s) /\
  Harness.exit_code s = Some 0 /\
  length (Harness.threads s) = n.
Proof.
  intros Hi Ht. destruct (inv_terminated _ _ _ _ _ _ s Hi Ht) as (Hx & Hn & Hall & Ho).
  destruct Hi as [HI _]. pose proof (atomic_total_finished _ _ HI Hall) as Htot.
  destruct HI as (_ & _ & Hcnt & _). split_and!; try assumption.
  rewrite Hcnt, Htot, Hn. f_equal. lia.
Qed.

(** While the product fits an [int] the counter never wraps. *)
Lemma atomic_counter_exact (s : Atomic.state) :
  atomic_harness_inv s -> Z.of_nat n * k <= Int.INT_MAX ->
  Atomic.counter (Harness.glob s) = total atomic_performed (Harness.threads s) /\
  0 <= Atomic.counter (Harness.glob s) <= Z.of_nat n * k.
Proof.
  intros [HI Hm] Hfit. pose proof (atomic_total_bounds _ _ HI) as Hb.
  pose proof (main_inv_length _ _ _ _ _ s Hm) as Hle.
  destruct HI as (_ & _ & Hcnt & _).
  assert (0 <= total atomic_performed (Harness.threads s) <= Z.of_nat n * k) as Hr by nia.
  rewrite Hcnt, wrap_in_range; [auto|]. unfold Int.in_range, Int.INT_MIN. lia.
Qed.

End AtomicProgram.

(** ** The counter under the mutex (src/atomic/main.cpp) *)

Section MutexProgram.

Variable n : nat.
Variable k : Z.
Hypothesis k_range : 0 <= k <= Int.INT_MAX.

Lemma mutex_inv_start : mutex_inv n k (Mutex.Globals (Z.of_nat n) k 0 None) [].
Proof.
  unfold mutex_inv. split_and!; try reflexivity; try (intros j l Hj; discriminate).
  intros h Hh. discriminate.
Qed.

Lemma mutex_inv_count g ws : mutex_inv n k g ws -> Mutex.threadCount g = Z.of_nat n.
Proof. intros H. apply H. Qed.

Lemma lookup_snoc_Some {A : Type} (ws : list A) (x y : A) (j : nat) :
  (ws ++ [x]) !! j = Some y -> ws !! j = Some y \/ (j = length ws /\ y = x).
Proof.
  intros H. apply lookup_app_Some in H as [H|[Hge H]]; [auto|]. right.
  apply list_lookup_singleton_Some in H as [H ->]. split; [lia|reflexivity].
Qed.

Lemma mutex_inv_entry g ws :
  mutex_inv n k g ws -> (length ws < n)%nat -> mutex_inv n k g (ws ++ [Mutex.entry]).
Proof.
  intros (Hc & Hit & Hcnt & Hloc & Hown & Htmp & Hh) _. unfold mutex_inv.
  split_and!; try assumption.
  - rewrite total_app. simpl. rewrite Hcnt. unfold mutex_performed. simpl. lia.
  - intros j l [H|[-> ->]]%lookup_snoc_Some; [eauto|]. reflexivity.
  - intros j l [H|[-> ->]]%lookup_snoc_Some; [eauto|]. simpl. split; [discriminate|].
    intros Hm. apply Hh in Hm. lia.
  - intros j l [H|[-> ->]]%lookup_snoc_Some; [eauto|]. discriminate.
  - intros h Hm. apply Hh in Hm. rewrite length_app. simpl. lia.
Qed.

(** Case analysis on a move [Hb : Mutex.increment j g l = Ok (g', l')]. *)
Ltac mutex_move Hb :=
  unfold Mutex.increment, Mutex.goto in Hb; simpl in Hb;
  repeat match type of Hb with
         | context [Z.ltb ?a ?b] => destruct (Z.ltb_spec a b)
         | context [Int.incr ?a] =>
             let E := fresh "E" in
             destruct (Int.incr a) eqn:E; [apply incr_Some in E as [? ->]|]
         | context [match ?o with Some _ => _ | None => _ end] =>
             let E := fresh "E" in destruct o eqn:E
         | context [Nat.eqb ?a ?b] => destruct (Nat.eqb_spec a b)
         end;
  try discriminate; injection Hb as <- <-.

(** A move keeps the configuration. *)
Lemma mutex_body_config j g l g' l' :
  Mutex.increment j g l = Ok (g', l') ->
  Mutex.threadCount g' = Mutex.threadCount g /\ Mutex.iterations g' = Mutex.iterations g.
Proof.
  intros Hb. destruct l as [ln i tmp ms], g as [tc it c mx].
  destruct ln; mutex_move Hb; simpl; auto.
Qed.

(** A move changes the counter by what the worker performs in it. *)
Lemma mutex_body_counter j g l g' l' :
  Mutex.increment j g l = Ok (g', l') ->
  (Mutex.line l = Mutex.WriteCounter -> Mutex.tmp l = Mutex.counter g) ->
  mutex_local_ok k l ->
  Mutex.counter g' = Mutex.counter g - mutex_performed l + mutex_performed l'.
Proof.
  intros Hb Ht Hl. destruct l as [ln i tmp ms], g as [tc it c mx].
  unfold mutex_local_ok, mutex_performed in *. simpl in *.
  destruct ln; mutex_move Hb; simpl; try lia.
  rewrite Ht by reflexivity. lia.
Qed.

(** Only the write of [counter++] changes the counter. *)
Lemma mutex_body_counter_same j g l g' l' :
  Mutex.increment j g l = Ok (g', l') ->
  Mutex.line l <> Mutex.WriteCounter -> Mutex.counter g' = Mutex.counter g.
Proof.
  intros Hb Hne. destruct l as [ln i tmp ms], g as [tc it c mx].
  destruct ln; mutex_move Hb; simpl in *; congruence.
Qed.

Lemma mutex_body_local_ok j g l g' l' :
  Mutex.increment j g l = Ok (g', l') -> Mutex.iterations g = k ->
  mutex_local_ok k l -> mutex_local_ok k l'.
Proof.
  intros Hb Hit Hl. destruct l as [ln i tmp ms], g as [tc it c mx].
  unfold mutex_local_ok in *. simpl in *.
  destruct ln; mutex_move Hb; simpl; lia.
Qed.

(** A value just read is the value of the counter. *)
Lemma mutex_body_tmp j g l g' l' :
  Mutex.increment j g l = Ok (g', l') ->
  Mutex.line l' = Mutex.WriteCounter -> Mutex.tmp l' = Mutex.counter g'.
Proof.
  intros Hb. destruct l as [ln i tmp ms], g as [tc it c mx].
  destruct ln; mutex_move Hb; simpl; congruence.
Qed.

(** A move hands the mutex over only to or from the worker that moves. *)
Lemma mutex_body_owner j g l g' l' :
  Mutex.increment j g l = Ok (g', l') ->
  (in_critical l = true <-> Mutex.m g = Some j) ->
  (in_critical l' = true <-> Mutex.m g' = Some j) /\
  (forall j0, j0 <> j -> (Mutex.m g' = Some j0 <-> Mutex.m g = Some j0)).
Proof.
  intros Hb Ho. destruct l as [ln i tmp ms], g as [tc it c mx].
  unfold in_critical in *. simpl in *.
  destruct ln; mutex_move Hb; simpl; subst;
    (split; [|intros j0 Hne]); try tauto; try (split; congruence).
Qed.

Lemma mutex_inv_body g ws j l g' l' :
  mutex_inv n k g ws -> (length ws <= n)%nat -> ws !! j = Some l ->
  Mutex.increment j g l = Ok (g', l') -> mutex_inv n k g' (<[j:=l']> ws).
Proof.
  intros (Hc & Hit & Hcnt & Hloc & Hown & Htmp & Hh) _ Hj Hb.
  pose proof (Hloc j l Hj) as Hl. pose proof (Hown j l Hj) as Ho.
  pose proof (Htmp j l Hj) as Ht. pose proof (lookup_lt_Some _ _ _ Hj) as Hlt.
  destruct (mutex_body_config _ _ _ _ _ Hb) as [Hc' Hit'].
  destruct (mutex_body_owner _ _ _ _ _ Hb Ho) as [Ho' Hother].
  unfold mutex_inv. rewrite (total_insert _ _ _ l l' Hj), length_insert.
  split_and!.
  - congruence.
  - congruence.
  - rewrite (mutex_body_counter _ _ _ _ _ Hb Ht Hl), Hcnt. reflexivity.
  - intros j0 l0 [(<- & <- & _)|(Hne & Hj0)]%list_lookup_insert_Some; [|eauto].
    eapply mutex_body_local_ok; eauto.
  - intros j0 l0 [(<- & <- & _)|(Hne & Hj0)]%list_lookup_insert_Some; [exact Ho'|].
    rewrite (Hown j0 l0 Hj0). symmetry. apply Hother. congruence.
  - intros j0 l0 [(<- & <- & _)|(Hne & Hj0)]%list_lookup_insert_Some Hw.
    + eapply mutex_body_tmp; eauto.
    + rewrite (Htmp j0 l0 Hj0 Hw). symmetry.
      eapply mutex_body_counter_same; [exact Hb|]. intros Hlw.
      assert (in_critical l = true) as Hcl by (unfold in_critical; rewrite Hlw; reflexivity).
      assert (in_critical l0 = true) as Hcl0 by (unfold in_critical; rewrite Hw; reflexivity).
      apply Ho in Hcl. apply (Hown j0 l0 Hj0) in Hcl0. congruence.
  - intros h Hm. destruct (decide (h = j)) as [->|Hne]; [exact Hlt|].
    apply Hh. apply Hother; assumption.
Qed.

Lemma mutex_finished_stuck j g l :
  Mutex.finished l = true -> Mutex.increment j g l = Stuck.
Proof.
  unfold Mutex.finished, Mutex.increment. destruct (Mutex.line l); (discriminate || reflexivity).
Qed.

Lemma mutex_left_entry : 0 <= mutex_left k Mutex.entry.
Proof. unfold mutex_left. simpl. lia. Qed.

Lemma mutex_left_nonneg g ws l : mutex_inv n k g ws -> l ∈ ws -> 0 <= mutex_left k l.
Proof.
  intros (_ & _ & _ & Hloc & _) [j Hj]%list_elem_of_lookup. specialize (Hloc j l Hj).
  unfold mutex_local_ok, mutex_left in *. destruct (Mutex.line l); lia.
Qed.

Lemma mutex_left_body g ws j l g' l' :
  mutex_inv n k g ws -> (length ws <= n)%nat -> ws !! j = Some l ->
  Mutex.increment j g l = Ok (g', l') -> mutex_left k l' < mutex_left k l.
Proof.
  intros (_ & Hit & _ & Hloc & _) _ Hj Hb. specialize (Hloc j l Hj).
  destruct l as [ln i tmp ms], g as [tc it c mx].
  unfold mutex_local_ok, mutex_left in *. simpl in *.
  destruct ln; mutex_move Hb; simpl; lia.
Qed.

Lemma mutex_performed_le g ws l : mutex_inv n k g ws -> l ∈ ws -> mutex_performed l <= k.
Proof.
  intros (_ & _ & _ & Hloc & _) [j Hj]%list_elem_of_lookup. specialize (Hloc j l Hj).
  unfold mutex_local_ok, mutex_performed in *. destruct (Mutex.line l); lia.
Qed.

Lemma mutex_performed_nonneg g ws l : mutex_inv n k g ws -> l ∈ ws -> 0 <= mutex_performed l.
Proof.
  intros (_ & _ & _ & Hloc & _) [j Hj]%list_elem_of_lookup. specialize (Hloc j l Hj).
  unfold mutex_local_ok, mutex_performed in *. destruct (Mutex.line l); lia.
Qed.

(** The counter never exceeds the product. *)
Lemma mutex_counter_bounds g ws :
  mutex_inv n k g ws -> (length ws <= n)%nat -> 0 <= Mutex.counter g <= Z.of_nat n * k.
Proof.
  intros HI Hle. pose proof (total_bounds mutex_performed 0 k ws) as Hb.
  destruct HI as (H1 & H2 & Hcnt & H4). rewrite Hcnt.
  assert (0 * Z.of_nat (length ws) <= total mutex_performed ws <= k * Z.of_nat (length ws)).
  { apply Hb. intros l Hl. split.
    - eapply mutex_performed_nonneg; [|exact Hl]. unfold mutex_inv; eauto.
    - eapply mutex_performed_le; [|exact Hl]. unfold mutex_inv; eauto. }
  nia.
Qed.

(** The product of the configuration fits the [int] counter. *)
Hypothesis fits : Z.of_nat n * k <= Int.INT_MAX.

(** The owner of the mutex, and a worker that finds it free, can move. *)
Lemma mutex_can_move g ws j l :
  mutex_inv n k g ws -> (length ws <= n)%nat -> ws !! j = Some l ->
  in_critical l = true \/ (Mutex.line l = Mutex.Acquire /\ Mutex.m g = None) ->
  exists g' l', Mutex.increment j g l = Ok (g', l').
Proof.
  intros HI Hle Hj Hcase.
  assert (Mutex.line l = Mutex.WriteCounter -> Mutex.tmp l < Int.INT_MAX) as Hroom.
  { intros Hw. destruct HI as (H1 & H2 & Hcnt & Hloc & H5 & Htmp & H7).
    rewrite (Htmp j l Hj Hw), Hcnt.
    assert (total mutex_performed ws < k * Z.of_nat (length ws)).
    { apply (total_below mutex_performed k ws j l); [|exact Hj|].
      - intros l0 Hl0. eapply mutex_performed_le; [|exact Hl0]. unfold mutex_inv; eauto 10.
      - specialize (Hloc j l Hj). unfold mutex_local_ok, mutex_performed in *.
        rewrite Hw in *. lia. }
    nia. }
  destruct HI as (_ & Hit & _ & Hloc & Hown & _ & _).
  pose proof (Hloc j l Hj) as Hl. pose proof (Hown j l Hj) as Ho.
  destruct l as [ln i tmp ms], g as [tc it c mx].
  unfold Mutex.increment, mutex_local_ok, in_critical in *. simpl in *.
  destruct ln; simpl in *.
  - destruct Hcase as [?|[_ ->]]; [discriminate|]. eauto.
  - destruct (i <? it); eauto.
  - eauto.
  - assert (Int.incr tmp = Some (tmp + 1)) as -> by (apply incr_Some; auto). eauto.
  - eauto.
  - assert (Int.incr i = Some (i + 1)) as -> by (apply incr_Some; lia). eauto.
  - assert (mx = Some j) as -> by tauto. rewrite Nat.eqb_refl. eauto.
  - destruct Hcase as [?|[? _]]; discriminate.
Qed.

(** The program never deadlocks: the owner of the mutex can always move. *)
Lemma mutex_live g ws :
  mutex_inv n k g ws -> (length ws <= n)%nat ->
  (exists l, l ∈ ws /\ Mutex.finished l = false) ->
  exists j l g' l', ws !! j = Some l /\ Mutex.increment j g l = Ok (g', l').
Proof.
  intros HI Hle (l & [j Hj]%list_elem_of_lookup & Hnf).
  pose proof HI as (_ & _ & _ & _ & Hown & _ & Hh).
  destruct (Mutex.m g) as [h|] eqn:Hm.
  - destruct (lookup_lt_is_Some_2 ws h (Hh h eq_refl)) as [lh Hlh].
    destruct (mutex_can_move g ws h lh HI Hle Hlh) as (g' & l' & Hb).
    { left. apply (Hown h lh Hlh). reflexivity. }
    eauto 6.
  - destruct (mutex_can_move g ws j l HI Hle Hj) as (g' & l' & Hb).
    { right. split; [|exact Hm]. pose proof (Hown j l Hj) as Ho.
      unfold in_critical, Mutex.finished in *.
      destruct (Mutex.line l); try reflexivity; try discriminate;
        exfalso; assert (None = Some j) by tauto; discriminate. }
    eauto 6.
Qed.

Lemma mutex_safe g ws j l :
  mutex_inv n k g ws -> (length ws <= n)%nat -> ws !! j = Some l ->
  Mutex.increment j g l <> Undef.
Proof.
  intros HI Hle Hj. pose proof HI as (_ & _ & _ & _ & Hown & _ & _).
  pose proof (Hown j l Hj) as Ho.
  destruct (in_critical l) eqn:Hc.
  - destruct (mutex_can_move g ws j l HI Hle Hj) as (g' & l' & ->); [auto|discriminate].
  - unfold in_critical, Mutex.increment in *.
    destruct (Mutex.line l); try discriminate.
    destruct (Mutex.m g) as [h|]; [|discriminate].
    destruct (Nat.eqb_spec h j) as [->|Hne]; [|discriminate].
    assert (false = true) by tauto. discriminate.
Qed.

Variable order : nat -> list nat.
Hypothesis order_perm : order n ≡ₚ seq 0 n.
Hypothesis n_int : Z.of_nat n <= Int.INT_MAX.

Abbreviation mutex_harness_inv :=
  (inv Mutex.finished order Mutex.report n EmptyString (mutex_inv n k)).

(** Every state the program reaches satisfies the invariants. *)
Lemma mutex_reach_inv (sched : list tid) (s : Mutex.state) :
  Mutex.exec_in order sched (Mutex.start (Z.of_nat n) k) = Ok s -> mutex_harness_inv s.
Proof.
  apply (inv_exec Mutex.threadCount Mutex.increment Mutex.entry Mutex.finished order
           Mutex.report n EmptyString (mutex_inv n k)
           mutex_inv_count mutex_inv_entry mutex_inv_body mutex_finished_stuck order_perm).
  apply inv_init. apply mutex_inv_start.
Qed.

(** Every run of the mutex program terminates, and ends with [Q] when [Q]
    follows from the invariants. *)
Lemma mutex_every_run (Q : Mutex.state -> Prop) :
  (forall s, mutex_harness_inv s -> Harness.terminated s -> Q s) ->
  every_run (Mutex.exec_in order) (Mutex.start (Z.of_nat n) k) Q.
Proof.
  intros HQ.
  apply (every_run_rule Mutex.threadCount Mutex.increment Mutex.entry Mutex.finished order
           Mutex.report n EmptyString (mutex_inv n k)
           mutex_inv_count mutex_inv_entry mutex_inv_body mutex_finished_stuck order_perm
           (mutex_left k) mutex_left_entry mutex_left_nonneg mutex_left_body
           n_int mutex_live mutex_safe).
  - apply mutex_inv_start.
  - exact HQ.
Qed.

(** What holds when the mutex program has terminated. *)
Lemma mutex_final (s : Mutex.state) :
  mutex_harness_inv s -> Harness.terminated s ->
  Mutex.counter (Harness.glob s) = Z.of_nat n * k /\
  Harness.out s = Mutex.report (Harness.glob s) /\
  Harness.exit_code s = Some 0 /\
  length (Harness.threads s) = n /\
  Mutex.m (Harness.glob s) = None.
Proof.
  intros Hi Ht. destruct (inv_terminated _ _ _ _ _ _ s Hi Ht) as (Hx & Hn & Hall & Ho).
  destruct Hi as [HI _]. destruct HI as (_ & _ & Hcnt & Hloc & Hown & _ & Hh).
  split_and!; try assumption.
  - rewrite Hcnt, (total_const mutex_performed k); [lia|].
    intros l Hl. pose proof (Hall l Hl) as Hf.
    apply list_elem_of_lookup in Hl as [j Hj]. specialize (Hloc j l Hj).
    unfold mutex_local_ok, mutex_performed, Mutex.finished in *.
    destruct (Mutex.line l); try discriminate. lia.
  - destruct (Mutex.m (Harness.glob s)) as [h|] eqn:Hm; [|reflexivity]. exfalso.
    destruct (lookup_lt_is_Some_2 (Harness.threads s) h (Hh h eq_refl)) as [lh Hlh].
    assert (in_critical lh = true) as Hc by (apply (Hown h lh Hlh); reflexivity).
    assert (Mutex.finished lh = true) as Hf by (apply Hall, list_elem_of_lookup; eauto).
    unfold in_critical, Mutex.finished in *. destruct (Mutex.line lh); discriminate.
Qed.

End MutexProgram.

(** ** The feature probe (src/src/atomic/test_features.cpp) *)

Section FeatureProgram.

Lemma feature_inv_start : feature_inv (FeatureTest.Globals 0) [].
Proof. unfold feature_inv. split; [reflexivity|]. intros l Hl. inversion Hl. Qed.

Lemma feature_inv_count g ws : feature_inv g ws -> FeatureTest.thread_count g = Z.of_nat 5.
Proof. reflexivity. Qed.

Lemma feature_inv_entry g ws :
  feature_inv g ws -> (length ws < 5)%nat -> feature_inv g (ws ++ [FeatureTest.entry]).
Proof.
  intros (Hcnt & Hloc) _. unfold feature_inv. split.
  - rewrite total_app. simpl. rewrite Hcnt. f_equal. unfold feature_performed. simpl. lia.
  - intros l [H|H]%elem_of_app; [apply Hloc, H|].
    apply list_elem_of_singleton in H as ->. unfold feature_local_ok. simpl. lia.
Qed.

Lemma feature_inv_body g ws j l g' l' :
  feature_inv g ws -> (length ws <= 5)%nat -> ws !! j = Some l ->
  FeatureTest.worker j g l = Ok (g', l') -> feature_inv g' (<[j:=l']> ws).
Proof.
  intros (Hcnt & Hloc) _ Hj Hb.
  assert (feature_local_ok l) as Hl by (apply Hloc, list_elem_of_lookup; eauto).
  unfold feature_inv. rewrite (total_insert _ _ _ l l' Hj).
  destruct l as [ln i], g as [c].
  unfold FeatureTest.worker, FeatureTest.increment, feature_local_ok, feature_performed in *.
  simpl in *.
  destruct ln; simpl in *;
    repeat match type of Hb with
           | context [Z.ltb ?a ?b] => destruct (Z.ltb_spec a b)
           | context [Int.incr ?a] =>
               let E := fresh "E" in
               destruct (Int.incr a) eqn:E; [apply incr_Some in E as [? ->]|]
           end;
    try discriminate; injection Hb as <- <-; simpl;
    (split; [| intros l0 [->|Hin]%elem_of_insert_inv; [simpl; lia | apply Hloc, Hin]]).
  all: try (rewrite Hcnt; f_equal; lia).
  unfold Int.fetch_add. rewrite Hcnt, wrap_add_l. f_equal. lia.
Qed.

Lemma feature_finished_stuck j g l :
  FeatureTest.finished l = true -> FeatureTest.worker j g l = Stuck.
Proof.
  unfold FeatureTest.finished, FeatureTest.worker.
  destruct (FeatureTest.line l); (discriminate || reflexivity).
Qed.

Lemma feature_left_entry : 0 <= feature_left FeatureTest.entry.
Proof. unfold feature_left. simpl. lia. Qed.

Lemma feature_left_nonneg g ws l : feature_inv g ws -> l ∈ ws -> 0 <= feature_left l.
Proof.
  intros (_ & Hloc) Hl. specialize (Hloc l Hl).
  unfold feature_local_ok, feature_left in *. destruct (FeatureTest.line l); lia.
Qed.

(** What a worker does in each of its positions, under the invariant. *)
Lemma feature_body_cases g l j :
  feature_local_ok l ->
  FeatureTest.finished l = true \/
  exists g' l', FeatureTest.worker j g l = Ok (g', l') /\ feature_left l' < feature_left l.
Proof.
  intros Hl. destruct l as [ln i], g as [c].
  unfold FeatureTest.worker, FeatureTest.finished, feature_local_ok, feature_left in *.
  simpl in *. destruct ln; simpl; auto; right.
  - destruct (Z.ltb_spec i 1000); eexists _, _; (split; [reflexivity|simpl; lia]).
  - eexists _, _; (split; [reflexivity|simpl; lia]).
  - assert (Int.incr i = Some (i + 1)) as ->
      by (apply incr_Some; unfold Int.INT_MAX; lia).
    eexists _, _; (split; [reflexivity|simpl; lia]).
Qed.

Lemma feature_left_body g ws j l g' l' :
  feature_inv g ws -> (length ws <= 5)%nat -> ws !! j = Some l ->
  FeatureTest.worker j g l = Ok (g', l') -> feature_left l' < feature_left l.
Proof.
  intros (_ & Hloc) _ Hj Hb.
  assert (feature_local_ok l) as Hl by (apply Hloc, list_elem_of_lookup; eauto).
  destruct (feature_body_cases g l j Hl) as [Hf|(g1 & l1 & Hb1 & Hlt)].
  - rewrite (feature_finished_stuck j g l Hf) in Hb. discriminate.
  - congruence.
Qed.

Lemma feature_live g ws :
  feature_inv g ws -> (length ws <= 5)%nat ->
  (exists l, l ∈ ws /\ FeatureTest.finished l = false) ->
  exists j l g' l', ws !! j = Some l /\ FeatureTest.worker j g l = Ok (g', l').
Proof.
  intros (_ & Hloc) _ (l & Hin & Hnf).
  pose proof (Hloc l Hin) as Hl. apply list_elem_of_lookup in Hin as [j Hj].
  destruct (feature_body_cases g l j Hl) as [Hf|(g1 & l1 & Hb1 & _)]; [congruence|].
  eauto 6.
Qed.

Lemma feature_safe g ws j l :
  feature_inv g ws -> (length ws <= 5)%nat -> ws !! j = Some l ->
  FeatureTest.worker j g l <> Undef.
Proof.
  intros (_ & Hloc) _ Hj.
  assert (feature_local_ok l) as Hl by (apply Hloc, list_elem_of_lookup; eauto).
  destruct (feature_body_cases g l j Hl) as [Hf|(g1 & l1 & Hb1 & _)].
  - rewrite (feature_finished_stuck j g l Hf). discriminate.
  - rewrite Hb1. discriminate.
Qed.

Variable cplusplus : Z.
Variable order : nat -> list nat.
Hypothesis order_perm : order 5%nat ≡ₚ seq 0 5.

Abbreviation feature_harness_inv :=
  (inv FeatureTest.finished order (FeatureTest.report cplusplus) 5
       (FeatureTest.banner cplusplus) feature_inv).

Lemma feature_reach_inv (sched : list tid) (s : FeatureTest.state) :
  FeatureTest.exec_in cplusplus order sched (FeatureTest.test_features cplusplus) = Ok s ->
  feature_harness_inv s.
Proof.
  apply (inv_exec FeatureTest.thread_count FeatureTest.worker FeatureTest.entry
           FeatureTest.finished order (FeatureTest.report cplusplus) 5
           (FeatureTest.banner cplusplus) feature_inv
           feature_inv_count feature_inv_entry feature_inv_body feature_finished_stuck
           order_perm).
  apply inv_init. apply feature_inv_start.
Qed.

Lemma feature_every_run (Q : FeatureTest.state -> Prop) :
  (forall s, feature_harness_inv s -> Harness.terminated s -> Q s) ->
  every_run (FeatureTest.exec_in cplusplus order) (FeatureTest.test_features cplusplus) Q.
Proof.
  intros HQ.
  apply (every_run_rule FeatureTest.thread_count FeatureTest.worker FeatureTest.entry
           FeatureTest.finished order (FeatureTest.report cplusplus) 5
           (FeatureTest.banner cplusplus) feature_inv
           feature_inv_count feature_inv_entry feature_inv_body feature_finished_stuck
           order_perm
           feature_left feature_left_entry feature_left_nonneg feature_left_body).
  - unfold Int.INT_MAX. lia.
  - exact feature_live.
  - exact feature_safe.
  - apply feature_inv_start.
  - exact HQ.
Qed.

(** What holds when the probe has terminated. *)
Lemma feature_final (s : FeatureTest.state) :
  feature_harness_inv s -> Harness.terminated s ->
  FeatureTest.counter (Harness.glob s) = 5000 /\
  Harness.out s =
    String.append (FeatureTest.banner cplusplus)
                  (FeatureTest.report cplusplus (Harness.glob s)) /\
  Harness.exit_code s = Some 0 /\
  length (Harness.threads s) = 5%nat /\
  (forall l, l ∈ Harness.threads s ->
             FeatureTest.line l = FeatureTest.Returned /\ FeatureTest.j l = 1000).
Proof.
  intros Hi Ht. destruct (inv_terminated _ _ _ _ _ _ s Hi Ht) as (Hx & Hn & Hall & Ho).
  destruct Hi as [(Hcnt & Hloc) _].
  assert (forall l, l ∈ Harness.threads s ->
            FeatureTest.line l = FeatureTest.Returned /\ FeatureTest.j l = 1000) as Hret.
  { intros l Hl. pose proof (Hloc l Hl) as Hok. pose proof (Hall l Hl) as Hf.
    unfold feature_local_ok, FeatureTest.finished in *.
    destruct (FeatureTest.line l); try discriminate. split; [reflexivity|lia]. }
  split_and!; try assumption.
  rewrite Hcnt, (total_const feature_performed 1000), Hn; [reflexivity|].
  intros l Hl. destruct (Hret l Hl) as [Hline Hj]. unfold feature_performed.
  rewrite Hline, Hj. reflexivity.
Qed.

End FeatureProgram.

(** ** The programs started with [threadCount = n] and [iterations = k] *)

(** The atomic program, whatever the order of the joins: every run returns
    [0] with the product of the configuration, reduced to 32 bits, in the
    counter, and that counter printed. *)
Lemma atomic_run_spec (n k : Z) (order : nat -> list nat) :
  0 <= n <= Int.INT_MAX -> 0 <= k <= Int.INT_MAX ->
  order (Z.to_nat n) ≡ₚ seq 0 (Z.to_nat n) ->
  every_run (Atomic.exec_in order) (Atomic.start n k)
    (fun s => Atomic.counter (Harness.glob s) = Int.wrap (n * k) /\
              Harness.out s = Atomic.report (Harness.glob s) /\
              Harness.exit_code s = Some 0 /\
              length (Harness.threads s) = Z.to_nat n /\
              forall l, l ∈ Harness.threads s -> Atomic.i l = k).
Proof.
  intros Hn Hk Hperm.
  pose proof (atomic_every_run (Z.to_nat n) k Hk order Hperm) as H.
  rewrite Z2Nat.id in H by lia. apply H; [lia|]. clear H.
  intros s Hi Ht. destruct (atomic_final _ _ _ s Hi Ht) as (Hc & Ho & Hx & Hlen).
  rewrite Z2Nat.id in Hc by lia. split_and!; try assumption.
  intros l Hl. destruct (inv_terminated _ _ _ _ _ _ s Hi Ht) as (_ & _ & Hall & _).
  destruct Hi as [(_ & _ & _ & Hloc) _]. specialize (Hloc l Hl). specialize (Hall l Hl).
  unfold atomic_local_ok, Atomic.finished in *. destruct (Atomic.line l); try discriminate. lia.
Qed.

(** The mutex program, whatever the order of the joins, when the product
    fits the counter: every run returns [0] with the product in the
    counter, that counter printed and the mutex free. *)
Lemma mutex_run_spec (n k : Z) (order : nat -> list nat) :
  0 <= n <= Int.INT_MAX -> 0 <= k <= Int.INT_MAX -> n * k <= Int.INT_MAX ->
  order (Z.to_nat n) ≡ₚ seq 0 (Z.to_nat n) ->
  every_run (Mutex.exec_in order) (Mutex.start n k)
    (fun s => Mutex.counter (Harness.glob s) = n * k /\
              Harness.out s = Mutex.report (Harness.glob s) /\
              Harness.exit_code s = Some 0 /\
              length (Harness.threads s) = Z.to_nat n /\
              Mutex.m (Harness.glob s) = None /\
              forall l, l ∈ Harness.threads s -> Mutex.i l = k).
Proof.
  intros Hn Hk Hfit Hperm.
  assert (Z.of_nat (Z.to_nat n) * k <= Int.INT_MAX) as Hfit' by (rewrite Z2Nat.id; lia).
  pose proof (mutex_every_run (Z.to_nat n) k Hk Hfit' order Hperm) as H.
  rewrite Z2Nat.id in H by lia. apply H; [lia|]. clear H.
  intros s Hi Ht. destruct (mutex_final _ _ _ s Hi Ht) as (Hc & Ho & Hx & Hlen & Hm).
  rewrite Z2Nat.id in Hc by lia. split_and!; try assumption.
  intros l Hl. destruct (inv_terminated _ _ _ _ _ _ s Hi Ht) as (_ & _ & Hall & _).
  destruct Hi as [(_ & _ & _ & Hloc & _) _]. specialize (Hall l Hl).
  apply list_elem_of_lookup in Hl as [j Hj]. specialize (Hloc j l Hj).
  unfold mutex_local_ok, Mutex.finished in *. destruct (Mutex.line l); try discriminate. lia.
Qed.

Lemma seq_perm_refl (n : nat) : seq 0 n ≡ₚ seq 0 n.
Proof. reflexivity. Qed.

(** Every run of the atomic program returns the product reduced to 32
    bits. *)
Lemma atomic_returns_wrap (n k : Z) :
  0 <= n <= Int.INT_MAX -> 0 <= k <= Int.INT_MAX -> atomic_returns n k (Int.wrap (n * k)).
Proof.
  intros Hn Hk. unfold atomic_returns.
  eapply every_run_weaken; [exact (atomic_run_spec n k (seq 0) Hn Hk (seq_perm_refl _))|].
  simpl. tauto.
Qed.

(** Partial correctness needs no bound on the product: a run of the mutex
    program that has terminated has the product in its counter. *)
Lemma mutex_terminated_count (n k : Z) (order : nat -> list nat)
    (sched : list tid) (s : Mutex.state) :
  0 <= n -> 0 <= k <= Int.INT_MAX -> order (Z.to_nat n) ≡ₚ seq 0 (Z.to_nat n) ->
  Mutex.exec_in order sched (Mutex.start n k) = Ok s -> Harness.terminated s ->
  Mutex.counter (Harness.glob s) = n * k.
Proof.
  intros Hn Hk Hperm Hs Ht. rewrite <- (Z2Nat.id n) in Hs by lia.
  pose proof (mutex_reach_inv (Z.to_nat n) k Hk order Hperm sched s Hs) as Hi.
  destruct (mutex_final _ _ _ s Hi Ht) as (Hc & _). rewrite Hc, Z2Nat.id by lia. reflexivity.
Qed.

Lemma atomic_terminated_count (n k : Z) (order : nat -> list nat)
    (sched : list tid) (s : Atomic.state) :
  0 <= n -> 0 <= k <= Int.INT_MAX -> order (Z.to_nat n) ≡ₚ seq 0 (Z.to_nat n) ->
  Atomic.exec_in order sched (Atomic.start n k) = Ok s -> Harness.terminated s ->
  Atomic.counter (Harness.glob s) = Int.wrap (n * k).
Proof.
  intros Hn Hk Hperm Hs Ht. rewrite <- (Z2Nat.id n) in Hs by lia.
  pose proof (atomic_reach_inv (Z.to_nat n) k Hk order Hperm sched s Hs) as Hi.
  destruct (atomic_final _ _ _ s Hi Ht) as (Hc & _). rewrite Hc, Z2Nat.id by lia. reflexivity.
Qed.

(** The counter of the mutex program stays between [0] and the product. *)
Lemma mutex_counter_range (n k : Z) (sched : list tid) (s : Mutex.state) :
  0 <= n -> 0 <= k <= Int.INT_MAX ->
  Mutex.exec sched (Mutex.start n k) = Ok s ->
  0 <= Mutex.counter (Harness.glob s) <= n * k.
Proof.
  intros Hn Hk Hs. rewrite <- (Z2Nat.id n) in Hs by lia.
  pose proof (mutex_reach_inv (Z.to_nat n) k Hk (seq 0) (seq_perm_refl _) sched s Hs)
    as [HI Hm].
  pose proof (main_inv_length _ _ _ _ _ s Hm) as Hle.
  pose proof (mutex_counter_bounds (Z.to_nat n) k Hk _ _ HI Hle) as Hb.
  rewrite Z2Nat.id in Hb by lia. exact Hb.
Qed.

(** While the product fits, the counter of the atomic program stays
    between [0] and the product, and below it when an increment is about
    to happen. *)
Lemma atomic_counter_range (n k : Z) (sched : list tid) (s : Atomic.state) :
  0 <= n -> 0 <= k <= Int.INT_MAX -> n * k <= Int.INT_MAX ->
  Atomic.exec sched (Atomic.start n k) = Ok s ->
  0 <= Atomic.counter (Harness.glob s) <= n * k /\
  forall j l, Harness.threads s !! j = Some l -> Atomic.line l = Atomic.Increment ->
              Atomic.counter (Harness.glob s) < n * k.
Proof.
  intros Hn Hk Hfit Hs. rewrite <- (Z2Nat.id n) in Hs by lia.
  pose proof (atomic_reach_inv (Z.to_nat n) k Hk (seq 0) (seq_perm_refl _) sched s Hs) as Hi.
  assert (Z.of_nat (Z.to_nat n) * k <= Int.INT_MAX) as Hfit' by (rewrite Z2Nat.id; lia).
  destruct (atomic_counter_exact _ _ Hk _ s Hi Hfit') as [Hc Hr].
  rewrite Z2Nat.id in Hr by lia. split; [exact Hr|].
  intros j l Hj Hline. destruct Hi as [HI Hm].
  pose proof (main_inv_length _ _ _ _ _ s Hm) as Hle.
  destruct HI as (_ & _ & _ & Hloc).
  assert (total atomic_performed (Harness.threads s)
          < k * Z.of_nat (length (Harness.threads s))) as Hlt.
  { apply (total_below atomic_performed k _ j l); [|exact Hj|].
    - intros l0 Hl0. specialize (Hloc l0 Hl0).
      unfold atomic_local_ok, atomic_performed in *. destruct (Atomic.line l0); lia.
    - assert (atomic_local_ok k l) as Hl by (apply Hloc, list_elem_of_lookup; eauto).
      unfold atomic_local_ok, atomic_performed in *. rewrite Hline in *. lia. }
  rewrite Hc. nia.
Qed.

(** X1.  The mutex program has no data race, which is what makes
    interleaving its semantics: two workers are never both about to access
    the plain [counter], and no worker is when [main] reads it for the
    output. *)
Lemma mutex_data_race_free (n k : Z) (sched : list tid) (s : Mutex.state) :
  0 <= n -> 0 <= k <= Int.INT_MAX ->
  Mutex.exec sched (Mutex.start n k) = Ok s ->
  (forall j j' l l',
     Harness.threads s !! j = Some l -> Harness.threads s !! j' = Some l' ->
     accesses_counter l = true -> accesses_counter l' = true -> j = j') /\
  (Harness.pc s = Printing ->
   forall l, l ∈ Harness.threads s -> accesses_counter l = false).
Proof.
  intros Hn Hk Hs. rewrite <- (Z2Nat.id n) in Hs by lia.
  pose proof (mutex_reach_inv (Z.to_nat n) k Hk (seq 0) (seq_perm_refl _) sched s Hs)
    as [(_ & _ & _ & _ & Hown & _ & _) Hm].
  assert (forall l, accesses_counter l = true -> in_critical l = true) as Hcrit.
  { intros l. unfold accesses_counter, in_critical.
    destruct (Mutex.line l); (discriminate || reflexivity). }
  split.
  - intros j j' l l' Hj Hj' Hl Hl'.
    apply Hcrit, (Hown j l Hj) in Hl. apply Hcrit, (Hown j' l' Hj') in Hl'. congruence.
  - intros Hpc l Hl. unfold main_inv in Hm. rewrite Hpc in Hm. destruct Hm as (_ & _ & Hall).
    specialize (Hall l Hl). unfold Mutex.finished, accesses_counter in *.
    destruct (Mutex.line l); (discriminate || reflexivity).
Qed.

Lemma mutex_data_race_free_witness :
  exists s,
    Mutex.exec [Main; Main; Worker 1; Worker 1; Worker 1] (Mutex.start 2 1) = Ok s /\
    (forall j j' l l',
       Harness.threads s !! j = Some l -> Harness.threads s !! j' = Some l' ->
       accesses_counter l = true -> accesses_counter l' = true -> j = j') /\
    (Harness.pc s = Printing ->
     forall l, l ∈ Harness.threads s -> accesses_counter l = false).
Proof.
  eexists. split; [vm_compute; reflexivity|].
  apply (mutex_data_race_free 2 1 [Main; Main; Worker 1; Worker 1; Worker 1]);
    [lia|unfold Int.INT_MAX; lia|vm_compute; reflexivity].
Defined.

(** ** The claims *)

(** C1 (as amended).  For every configuration with [threadCount >= 1] and
    [iterations >= 0] whose product fits the 32-bit [int] counter, every
    run of the mutex program and every run of the atomic program
    terminates, whatever the schedule, and returns with the counter exactly
    at [threadCount * iterations]: no update is lost. *)
Theorem final_count_is_product (n k : Z) :
  Int.in_range n -> Int.in_range k -> 1 <= n -> 0 <= k -> n * k <= Int.INT_MAX ->
  mutex_returns n k (n * k) /\ atomic_returns n k (n * k).
Proof.
  intros [_ Hn] [_ Hk] Hn1 Hk0 Hfit. split.
  - unfold mutex_returns. eapply every_run_weaken.
    + apply (mutex_run_spec n k (seq 0)); [lia|lia|exact Hfit|reflexivity].
    + simpl. tauto.
  - rewrite <- (wrap_in_range (n * k)).
    + apply atomic_returns_wrap; lia.
    + unfold Int.in_range, Int.INT_MIN. nia.
Qed.

Lemma final_count_is_product_witness : mutex_returns 2 3 (2 * 3) /\ atomic_returns 2 3 (2 * 3).
Proof.
  apply (final_count_is_product 2 3); unfold Int.in_range, Int.INT_MIN, Int.INT_MAX; lia.
Defined.

(** C1 as stated fails: two threads of 1073741824 iterations each are a
    configuration with [threadCount >= 1] and [iterations >= 0]; both
    values are [int]s, but every run of the atomic program returns
    [-2147483648], which is not the product [2147483648]. *)
Lemma final_count_wraps_around :
  Int.in_range 2 /\ Int.in_range 1073741824 /\ 1 <= 2 /\ 0 <= 1073741824 /\
  atomic_returns 2 1073741824 (-2147483648) /\
  ~ (mutex_returns 2 1073741824 (2 * 1073741824) /\
     atomic_returns 2 1073741824 (2 * 1073741824)).
Proof.
  assert (atomic_returns 2 1073741824 (-2147483648)) as Hw.
  { apply (atomic_returns_wrap 2 1073741824); unfold Int.INT_MAX; lia. }
  unfold Int.in_range, Int.INT_MIN, Int.INT_MAX. split_and!; try lia; [exact Hw|].
  intros [_ Hp].
  destruct (every_run_witness _ _ _ eq_refl Hw) as (sched & s & Hs & Ht & Hc).
  destruct Hp as (_ & _ & _ & Hq). specialize (Hq sched s Hs Ht). simpl in Hq. lia.
Qed.

(** C5.  For every [threadCount >= 1], with [iterations = 0] every run of
    either program returns with the counter at [0], and no worker has
    advanced its loop. *)
Theorem zero_iterations_zero_count (n : Z) :
  Int.in_range n -> 1 <= n ->
  every_run Mutex.exec (Mutex.start n 0)
    (fun s => Mutex.counter (Harness.glob s) = 0 /\
              forall l, l ∈ Harness.threads s -> Mutex.i l = 0) /\
  every_run Atomic.exec (Atomic.start n 0)
    (fun s => Atomic.counter (Harness.glob s) = 0 /\
              forall l, l ∈ Harness.threads s -> Atomic.i l = 0).
Proof.
  intros [_ Hn] Hn1. split.
  - eapply every_run_weaken.
    + apply (mutex_run_spec n 0 (seq 0)); unfold Int.INT_MAX in *; (lia || reflexivity).
    + simpl. intros sched s _ _ (Hc & _ & _ & _ & _ & Hi). split; [lia|exact Hi].
  - eapply every_run_weaken.
    + apply (atomic_run_spec n 0 (seq 0)); unfold Int.INT_MAX in *; (lia || reflexivity).
    + simpl. intros sched s _ _ (Hc & _ & _ & _ & Hi). split; [|exact Hi].
      rewrite Hc, Z.mul_0_r. reflexivity.
Qed.

Lemma zero_iterations_zero_count_witness :
  every_run Mutex.exec (Mutex.start 3 0)
    (fun s => Mutex.counter (Harness.glob s) = 0 /\
              forall l, l ∈ Harness.threads s -> Mutex.i l = 0) /\
  every_run Atomic.exec (Atomic.start 3 0)
    (fun s => Atomic.counter (Harness.glob s) = 0 /\
              forall l, l ∈ Harness.threads s -> Atomic.i l = 0).
Proof.
  apply (zero_iterations_zero_count 3); unfold Int.in_range, Int.INT_MIN, Int.INT_MAX; lia.
Defined.

(** C7.  [main] takes no argument and starts from the constants
    [threadCount = 100] and [iterations = 1000000]; every run of either
    program terminates having written exactly the one line
    [Counter: 100000000] to standard output and returns [0]. *)
Theorem main_prints_one_line_and_returns_0 :
  Mutex.threadCount (Harness.glob Mutex.main) = 100 /\
  Mutex.iterations (Harness.glob Mutex.main) = 1000000 /\
  Atomic.threadCount (Harness.glob Atomic.main) = 100 /\
  Atomic.iterations (Harness.glob Atomic.main) = 1000000 /\
  every_run Mutex.exec Mutex.main
    (fun s => Harness.out s = String.append "Counter: 100000000" endl /\
              Harness.exit_code s = Some 0) /\
  every_run Atomic.exec Atomic.main
    (fun s => Harness.out s = String.append "Counter: 100000000" endl /\
              Harness.exit_code s = Some 0).
Proof.
  split_and!; try reflexivity.
  - eapply every_run_weaken.
    + apply (mutex_run_spec 100 1000000 (seq 0)); unfold Int.INT_MAX; (lia || reflexivity).
    + simpl. intros sched s _ _ (Hc & Ho & Hx & _). split; [|exact Hx].
      rewrite Ho. unfold Mutex.report. rewrite Hc. reflexivity.
  - eapply every_run_weaken.
    + apply (atomic_run_spec 100 1000000 (seq 0)); unfold Int.INT_MAX; (lia || reflexivity).
    + simpl. intros sched s _ _ (Hc & Ho & Hx & _). split; [|exact Hx].
      rewrite Ho. unfold Atomic.report. rewrite Hc. reflexivity.
Qed.

(** C9.  With the constants of the source the product
    [100 * 1000000 = 100000000] is an [int]; in every state either program
    reaches the counter lies between [0] and [100000000]; no move of any
    run is undefined, so the plain [int] never overflows; and the atomic
    [counter++] never wraps around. *)
Theorem reference_run_stays_in_range :
  100 * 1000000 = 100000000 /\ Int.in_range (100 * 1000000) /\
  (forall sched, Mutex.exec sched Mutex.main <> Undef) /\
  (forall sched s, Mutex.exec sched Mutex.main = Ok s ->
     0 <= Mutex.counter (Harness.glob s) <= 100000000) /\
  (forall sched, Atomic.exec sched Atomic.main <> Undef) /\
  (forall sched s, Atomic.exec sched Atomic.main = Ok s ->
     0 <= Atomic.counter (Harness.glob s) <= 100000000) /\
  (forall sched s j l, Atomic.exec sched Atomic.main = Ok s ->
     Harness.threads s !! j = Some l -> Atomic.line l = Atomic.Increment ->
     Int.fetch_add (Atomic.counter (Harness.glob s)) 1 = Atomic.counter (Harness.glob s) + 1).
Proof.
  assert (0 <= 100 <= Int.INT_MAX) as Hn by (unfold Int.INT_MAX; lia).
  assert (0 <= 1000000 <= Int.INT_MAX) as Hk by (unfold Int.INT_MAX; lia).
  assert (100 * 1000000 <= Int.INT_MAX) as Hfit by (unfold Int.INT_MAX; lia).
  split_and!.
  - reflexivity.
  - unfold Int.in_range, Int.INT_MIN, Int.INT_MAX. lia.
  - apply (mutex_run_spec 100 1000000 (seq 0) Hn Hk Hfit (seq_perm_refl _)).
  - intros sched s Hs. apply (mutex_counter_range 100 1000000 sched s); [lia|exact Hk|exact Hs].
  - apply (atomic_run_spec 100 1000000 (seq 0) Hn Hk (seq_perm_refl _)).
  - intros sched s Hs.
    apply (atomic_counter_range 100 1000000 sched s); [lia|exact Hk|exact Hfit|exact Hs].
  - intros sched s j l Hs Hj Hline.
    destruct (atomic_counter_range 100 1000000 sched s) as [Hr Hlt];
      [lia|exact Hk|exact Hfit|exact Hs|].
    specialize (Hlt j l Hj Hline). unfold Int.fetch_add. apply wrap_in_range.
    unfold Int.in_range, Int.INT_MIN, Int.INT_MAX. lia.
Qed.

Lemma reference_run_stays_in_range_witness :
  exists s,
    Atomic.exec [Main; Main; Worker 1; Worker 0; Worker 1] Atomic.main = Ok s /\
    0 <= Atomic.counter (Harness.glob s) <= 100000000 /\
    Int.fetch_add (Atomic.counter (Harness.glob s)) 1 = Atomic.counter (Harness.glob s) + 1.
Proof.
  eexists. split; [vm_compute; reflexivity|].
  destruct reference_run_stays_in_range as (_ & _ & _ & _ & _ & Hrange & Hexact). split.
  - apply (Hrange [Main; Main; Worker 1; Worker 0; Worker 1]).
    vm_compute. reflexivity.
  - apply (Hexact [Main; Main; Worker 1; Worker 0; Worker 1] _ 0%nat
             {| Atomic.line := Atomic.Increment; Atomic.i := 0;
                Atomic.memeSmth := EmptyString |});
      vm_compute; reflexivity.
Defined.

(** C4.  Two runs of the same configuration end with the same count,
    whatever their schedules, in the mutex program and in the atomic one;
    with [threadCount = 100] and [iterations = 1000000] every run of the
    atomic program returns with the counter at [100000000]. *)
Theorem final_count_is_deterministic :
  (forall n k, Int.in_range n -> Int.in_range k -> 1 <= n -> 0 <= k ->
     same_result Mutex.exec (Mutex.start n k) (fun s => Mutex.counter (Harness.glob s)) /\
     same_result Atomic.exec (Atomic.start n k) (fun s => Atomic.counter (Harness.glob s))) /\
  atomic_returns 100 1000000 100000000.
Proof.
  split.
  - intros n k [_ Hn] [_ Hk] Hn1 Hk0. split; intros sched1 sched2 s1 s2 H1 T1 H2 T2.
    + rewrite (mutex_terminated_count n k (seq 0) sched1 s1), (mutex_terminated_count n k (seq 0) sched2 s2);
        (reflexivity || lia || assumption).
    + rewrite (atomic_terminated_count n k (seq 0) sched1 s1), (atomic_terminated_count n k (seq 0) sched2 s2);
        (reflexivity || lia || assumption).
  - apply (atomic_returns_wrap 100 1000000); unfold Int.INT_MAX; lia.
Qed.

Lemma final_count_is_deterministic_witness :
  same_result Mutex.exec (Mutex.start 2 3) (fun s => Mutex.counter (Harness.glob s)) /\
  same_result Atomic.exec (Atomic.start 2 3) (fun s => Atomic.counter (Harness.glob s)).
Proof.
  apply (proj1 final_count_is_deterministic 2 3);
    unfold Int.in_range, Int.INT_MIN, Int.INT_MAX; lia.
Defined.

Lemma feature_performed_move j g l g' l' :
  FeatureTest.worker j g l = Ok (g', l') ->
  feature_performed l' = feature_performed l + (if at_call l then 1 else 0).
Proof.
  intros Hb. destruct l as [ln i], g as [c].
  unfold FeatureTest.worker, feature_performed, at_call in *. simpl in *.
  destruct ln; simpl in *;
    repeat match type of Hb with
           | context [Z.ltb ?a ?b] => destruct (Z.ltb_spec a b)
           | context [Int.incr ?a] =>
               let E := fresh "E" in
               destruct (Int.incr a) eqn:E; [apply incr_Some in E as [? ->]|]
           end;
    try discriminate; injection Hb as <- <-; simpl; lia.
Qed.

(** C10.  The feature probe starts with its counter at [0] and never has
    more than five threads; every run terminates with exactly five threads
    created, each having made exactly 1000 calls of [increment()], the
    counter at [5000] and the line [Final counter value: 5000] printed
    after the banner, whatever the value of [__cplusplus]. *)
Theorem feature_probe_counts_5000 (cplusplus : Z) :
  FeatureTest.counter (Harness.glob (FeatureTest.test_features cplusplus)) = 0 /\
  (forall sched s,
     FeatureTest.exec cplusplus sched (FeatureTest.test_features cplusplus) = Ok s ->
     (length (Harness.threads s) <= 5)%nat) /\
  every_run (FeatureTest.exec cplusplus) (FeatureTest.test_features cplusplus)
    (fun s =>
       length (Harness.threads s) = 5%nat /\
       FeatureTest.counter (Harness.glob s) = 5000 /\
       Harness.out s =
         String.append (FeatureTest.banner cplusplus)
        (String.append "Final counter value: 5000"
        (String.append endl
           (if 202002 <=? cplusplus then FeatureTest.cxx20_report else EmptyString))) /\
       Harness.exit_code s = Some 0) /\
  (forall sched s j,
     FeatureTest.exec cplusplus sched (FeatureTest.test_features cplusplus) = Ok s ->
     Harness.terminated s -> (j < 5)%nat ->
     feature_increments cplusplus j sched (FeatureTest.test_features cplusplus) = 1000%nat).
Proof.
  split_and!.
  - reflexivity.
  - intros sched s Hs.
    destruct (feature_reach_inv cplusplus (seq 0) (seq_perm_refl _) sched s Hs) as [_ Hm].
    exact (main_inv_length _ _ _ _ _ s Hm).
  - apply (feature_every_run cplusplus (seq 0) (seq_perm_refl _)).
    intros s Hi Ht. destruct (feature_final _ _ s Hi Ht) as (Hc & Ho & Hx & Hlen & _).
    split_and!; try assumption.
    rewrite Ho. unfold FeatureTest.report. rewrite Hc. reflexivity.
  - intros sched s j Hs Ht Hj.
    pose proof (feature_reach_inv cplusplus (seq 0) (seq_perm_refl _) sched s Hs) as Hi.
    destruct (feature_final _ _ s Hi Ht) as (_ & _ & _ & Hlen & Hret).
    pose proof (local_count FeatureTest.thread_count FeatureTest.worker FeatureTest.entry
                  FeatureTest.finished (seq 0) (FeatureTest.report cplusplus)
                  (fun _ l => at_call l) feature_performed j
                  (feature_performed_move j) sched _ s Hs) as Hcount.
    destruct (lookup_lt_is_Some_2 (Harness.threads s) j) as [l Hl]; [lia|].
    rewrite (local_of_Some _ j s l Hl) in Hcount.
    destruct (Hret l) as [Hline Hj1000]; [apply list_elem_of_lookup; eauto|].
    unfold feature_performed in Hcount at 1. rewrite Hline, Hj1000 in Hcount.
    unfold feature_increments. unfold local_of in Hcount. simpl in Hcount.
    unfold feature_performed in Hcount at 1. simpl in Hcount. lia.
Qed.

Lemma feature_probe_counts_5000_witness :
  exists s,
    FeatureTest.exec 201703 (serial 5 3001) (FeatureTest.test_features 201703) = Ok s /\
    (length (Harness.threads s) <= 5)%nat /\
    feature_increments 201703 4 (serial 5 3001) (FeatureTest.test_features 201703)
      = 1000%nat.
Proof.
  eexists. split; [vm_compute; reflexivity|].
  destruct (feature_probe_counts_5000 201703) as (_ & Hfive & _ & Hcalls). split.
  - apply (Hfive (serial 5 3001)). vm_compute. reflexivity.
  - eapply (Hcalls (serial 5 3001));
      [vm_compute; reflexivity | exists 0; reflexivity | lia].
Defined.

Lemma atomic_performed_move j g l g' l' :
  Atomic.increment j g l = Ok (g', l') ->
  atomic_performed l' = atomic_performed l + (if at_increment l then 1 else 0).
Proof.
  intros Hb. destruct l as [ln i ms], g as [tc it c].
  unfold Atomic.increment, atomic_performed, at_increment in *. simpl in *.
  destruct ln; simpl in *;
    repeat match type of Hb with
           | context [Z.ltb ?a ?b] => destruct (Z.ltb_spec a b)
           | context [Int.incr ?a] =>
               let E := fresh "E" in
               destruct (Int.incr a) eqn:E; [apply incr_Some in E as [? ->]|]
           end;
    try discriminate; injection Hb as <- <-; simpl; lia.
Qed.

Lemma atomic_counter_move j g l g' l' :
  Atomic.increment j g l = Ok (g', l') ->
  Int.wrap (Atomic.counter g') =
    Int.wrap (Atomic.counter g + (if at_increment l then 1 else 0)) /\
  (Int.in_range (Atomic.counter g) -> Int.in_range (Atomic.counter g')).
Proof.
  intros Hb. destruct l as [ln i ms], g as [tc it c].
  unfold Atomic.increment, at_increment in *. simpl in *.
  destruct ln; simpl in *;
    repeat match type of Hb with
           | context [Z.ltb ?a ?b] => destruct (Z.ltb_spec a b)
           | context [Int.incr ?a] =>
               let E := fresh "E" in
               destruct (Int.incr a) eqn:E; [apply incr_Some in E as [? ->]|]
           end;
    try discriminate; injection Hb as <- <-; simpl;
    try (split; [f_equal; lia|tauto]).
  unfold Int.fetch_add. split; [|intros _; apply wrap_range].
  apply wrap_in_range, wrap_range.
Qed.

(** The atomic counter is an [int] in every state. *)
Lemma atomic_counter_int (sched : list tid) (s0 s : Atomic.state) :
  Atomic.exec sched s0 = Ok s ->
  Int.in_range (Atomic.counter (Harness.glob s0)) ->
  Int.in_range (Atomic.counter (Harness.glob s)).
Proof.
  revert s0. induction sched as [|t sched IH]; intros s0 H H0.
  - injection H as <-. exact H0.
  - unfold Atomic.exec, Atomic.exec_in in H. simpl in H.
    destruct (Harness.step _ _ _ _ _ _ t s0) as [s1| |] eqn:E; try discriminate.
    apply (IH s1 H). destruct t as [|j]; simpl in E.
    + apply main_step_frame in E as [-> _]. exact H0.
    + apply worker_step_Ok in E as (l & g' & l' & Hj & Hb & ->). simpl.
      apply (atomic_counter_move _ _ _ _ _ Hb). exact H0.
Qed.

(** C2.  In the atomic program [counter++] is one move of the worker: it
    is enabled in every state, whatever the other threads are doing and
    with no lock to wait for, and it replaces the counter by the result of
    the fetch-and-add.  Whatever the schedule, the counter holds the
    number of [counter++] moves executed so far, reduced to 32 bits: none is
    lost.  When a run has terminated, every worker has executed exactly
    [iterations] of them. *)
Theorem atomic_increment_is_never_lost :
  (forall (s : Atomic.state) j l,
     Harness.threads s !! j = Some l -> Atomic.line l = Atomic.Increment ->
     exists s', Atomic.step (Worker j) s = Ok s' /\
       Atomic.counter (Harness.glob s') = Int.fetch_add (Atomic.counter (Harness.glob s)) 1 /\
       Harness.threads s' = <[j := Atomic.goto Atomic.ToString l]> (Harness.threads s)) /\
  (forall n k sched s,
     Atomic.exec sched (Atomic.start n k) = Ok s ->
     Atomic.counter (Harness.glob s) =
       Int.wrap (Z.of_nat (atomic_increments sched (Atomic.start n k)))) /\
  (forall n k sched s j,
     Int.in_range n -> Int.in_range k -> 1 <= n -> 0 <= k ->
     Atomic.exec sched (Atomic.start n k) = Ok s -> Harness.terminated s ->
     (j < Z.to_nat n)%nat ->
     Z.of_nat (atomic_increments_by j sched (Atomic.start n k)) = k).
Proof.
  split_and!.
  - intros s j l Hj Hline. unfold Atomic.step, Atomic.step_in. simpl.
    unfold Harness.worker_step. rewrite Hj. unfold Atomic.increment. rewrite Hline.
    eexists. split; [reflexivity|]. simpl. auto.
  - intros n k sched s Hs.
    pose proof (global_count Atomic.threadCount Atomic.increment Atomic.entry Atomic.finished
                  (seq 0) Atomic.report (fun _ l => at_increment l) Atomic.counter
                  (fun j g l g' l' Hb => proj1 (atomic_counter_move j g l g' l' Hb))
                  sched _ s Hs) as Hcount.
    change (Atomic.counter (Harness.glob (Atomic.start n k))) with 0 in Hcount.
    rewrite Z.add_0_l in Hcount. unfold atomic_increments.
    rewrite <- Hcount. symmetry. apply wrap_in_range.
    apply (atomic_counter_int sched _ s Hs). simpl.
    unfold Int.in_range, Int.INT_MIN, Int.INT_MAX. lia.
  - intros n k sched s j [_ Hn] [_ Hk] Hn1 Hk0 Hs Ht Hj.
    pose proof (local_count Atomic.threadCount Atomic.increment Atomic.entry Atomic.finished
                  (seq 0) Atomic.report (fun _ l => at_increment l) atomic_performed j
                  (atomic_performed_move j) sched _ s Hs) as Hcount.
    assert (0 <= k <= Int.INT_MAX) as Hk' by lia.
    pose proof Hs as Hs'. rewrite <- (Z2Nat.id n) in Hs' by lia.
    pose proof (atomic_reach_inv (Z.to_nat n) k Hk' (seq 0) (seq_perm_refl _) sched s Hs') as Hi.
    destruct (inv_terminated _ _ _ _ _ _ s Hi Ht) as (_ & Hlen & Hall & _).
    destruct (lookup_lt_is_Some_2 (Harness.threads s) j) as [l Hl]; [lia|].
    rewrite (local_of_Some _ j s l Hl) in Hcount.
    assert (l ∈ Harness.threads s) as Hin by (apply list_elem_of_lookup; eauto).
    destruct Hi as [(_ & _ & _ & Hloc) _]. specialize (Hloc l Hin). specialize (Hall l Hin).
    unfold atomic_increments_by. unfold local_of in Hcount. simpl in Hcount.
    unfold atomic_local_ok, Atomic.finished, atomic_performed in *. simpl in Hcount.
    destruct (Atomic.line l); try discriminate. lia.
Qed.

Lemma atomic_increment_is_never_lost_witness :
  exists s,
    Atomic.exec (serial 2 5) (Atomic.start 2 1) = Ok s /\
    Atomic.counter (Harness.glob s) =
      Int.wrap (Z.of_nat (atomic_increments (serial 2 5) (Atomic.start 2 1))) /\
    Z.of_nat (atomic_increments_by 1 (serial 2 5) (Atomic.start 2 1)) = 1.
Proof.
  eexists. split; [vm_compute; reflexivity|].
  destruct atomic_increment_is_never_lost as (_ & Hcount & Heach). split.
  - apply (Hcount 2 1 (serial 2 5)). vm_compute. reflexivity.
  - eapply (Heach 2 1 (serial 2 5));
      [unfold Int.in_range, Int.INT_MIN, Int.INT_MAX; lia
      |unfold Int.in_range, Int.INT_MIN, Int.INT_MAX; lia
      |lia|lia|vm_compute; reflexivity|exists 0; reflexivity|simpl; lia].
Defined.

Lemma in_loop_critical (l : Mutex.locals) : in_loop l = true -> in_critical l = true.
Proof. unfold in_loop, in_critical. destruct (Mutex.line l); (discriminate || reflexivity). Qed.

Lemma mutex_acquired_move j g l g' l' :
  Mutex.increment j g l = Ok (g', l') ->
  (if at_acquire l' then 0 else 1) =
  (if at_acquire l then 0 else 1) + (if at_acquire l then 1 else 0).
Proof.
  intros Hb. destruct l as [ln i tmp ms], g as [tc it c mx].
  unfold Mutex.increment, Mutex.goto, at_acquire in *. simpl in *.
  destruct ln; simpl in *;
    repeat match type of Hb with
           | context [Z.ltb ?a ?b] => destruct (Z.ltb_spec a b)
           | context [Int.incr ?a] => destruct (Int.incr a)
           | context [match ?o with Some _ => _ | None => _ end] => destruct o
           | context [Nat.eqb ?a ?b] => destruct (Nat.eqb a b)
           end;
    try discriminate; injection Hb as <- <-; reflexivity.
Qed.

Lemma mutex_released_move j g l g' l' :
  Mutex.increment j g l = Ok (g', l') ->
  (if Mutex.finished l' then 1 else 0) =
  (if Mutex.finished l then 1 else 0) + (if at_release l then 1 else 0).
Proof.
  intros Hb. destruct l as [ln i tmp ms], g as [tc it c mx].
  unfold Mutex.increment, Mutex.goto, Mutex.finished, at_release in *. simpl in *.
  destruct ln; simpl in *;
    repeat match type of Hb with
           | context [Z.ltb ?a ?b] => destruct (Z.ltb_spec a b)
           | context [Int.incr ?a] => destruct (Int.incr a)
           | context [match ?o with Some _ => _ | None => _ end] => destruct o
           | context [Nat.eqb ?a ?b] => destruct (Nat.eqb a b)
           end;
    try discriminate; injection Hb as <- <-; reflexivity.
Qed.

Lemma mutex_written_move j g l g' l' :
  Mutex.increment j g l = Ok (g', l') ->
  (if at_acquire l' then 0 else mutex_performed l') =
  (if at_acquire l then 0 else mutex_performed l) + (if at_write l then 1 else 0).
Proof.
  intros Hb. destruct l as [ln i tmp ms], g as [tc it c mx].
  unfold Mutex.increment, Mutex.goto, at_acquire, at_write, mutex_performed in *. simpl in *.
  destruct ln; simpl in *;
    repeat match type of Hb with
           | context [Z.ltb ?a ?b] => destruct (Z.ltb_spec a b)
           | context [Int.incr ?a] =>
               let E := fresh "E" in
               destruct (Int.incr a) eqn:E; [apply incr_Some in E as [? ->]|]
           | context [match ?o with Some _ => _ | None => _ end] => destruct o
           | context [Nat.eqb ?a ?b] => destruct (Nat.eqb a b)
           end;
    try discriminate; injection Hb as <- <-; simpl; lia.
Qed.

(** The locking discipline is kept in every state the program reaches, and
    a run that has terminated has seen every worker lock the mutex once,
    write the counter [k] times and unlock the mutex once. *)
Lemma mutex_lock_discipline_holds (n k : Z) (sched : list tid) (s : Mutex.state) :
  0 <= n -> 0 <= k <= Int.INT_MAX ->
  Mutex.exec sched (Mutex.start n k) = Ok s ->
  lock_discipline k sched (Mutex.start n k) s /\
  (Harness.terminated s ->
   forall j, (j < Z.to_nat n)%nat ->
     mutex_acquisitions j sched (Mutex.start n k) = 1%nat /\
     mutex_writes_by j sched (Mutex.start n k) = Z.to_nat k /\
     mutex_releases j sched (Mutex.start n k) = 1%nat).
Proof.
  intros Hn0 Hk' Hs.
  pose proof Hs as Hs'. rewrite <- (Z2Nat.id n) in Hs' by lia.
  pose proof (mutex_reach_inv (Z.to_nat n) k Hk' (seq 0) (seq_perm_refl _) sched s Hs')
    as Hi.
  pose proof Hi as [(_ & _ & _ & Hloc & Hown & _ & _) _].
  assert (lock_discipline k sched (Mutex.start n k) s) as Hdisc; [|split; [exact Hdisc|]].
  2: { intros Ht j Hj.
       destruct (inv_terminated _ _ _ _ _ _ s Hi Ht) as (_ & Hlen & Hall & _).
       destruct (lookup_lt_is_Some_2 (Harness.threads s) j) as [l Hl]; [lia|].
       assert (Mutex.finished l = true) as Hf by (apply Hall, list_elem_of_lookup; eauto).
       pose proof (local_count Mutex.threadCount Mutex.increment Mutex.entry Mutex.finished
                     (seq 0) Mutex.report (fun _ l => at_write l)
                     (fun l => if at_acquire l then 0 else mutex_performed l) j
                     (mutex_written_move j) sched _ s Hs) as Hwr.
       rewrite (local_of_Some _ j s l Hl) in Hwr.
       unfold local_of in Hwr. simpl in Hwr.
       pose proof (Hloc j l Hl) as Hok.
       destruct Hdisc as (Hcase & _). specialize (Hcase j l Hl).
       unfold mutex_writes_by.
       unfold Mutex.finished, mutex_local_ok, at_acquire, mutex_performed in *.
       destruct (Mutex.line l); try discriminate.
       split_and!; [tauto|lia|tauto]. }
  unfold lock_discipline. split_and!.
  - intros j l Hj.
    pose proof (local_count Mutex.threadCount Mutex.increment Mutex.entry Mutex.finished
                  (seq 0) Mutex.report (fun _ l => at_acquire l)
                  (fun l => if at_acquire l then 0 else 1) j
                  (mutex_acquired_move j) sched _ s Hs) as Hacq.
    pose proof (local_count Mutex.threadCount Mutex.increment Mutex.entry Mutex.finished
                  (seq 0) Mutex.report (fun _ l => at_release l)
                  (fun l => if Mutex.finished l then 1 else 0) j
                  (mutex_released_move j) sched _ s Hs) as Hrel.
    rewrite (local_of_Some _ j s l Hj) in Hacq, Hrel.
    unfold local_of in Hacq, Hrel. simpl in Hacq, Hrel.
    pose proof (Hloc j l Hj) as Hl. pose proof (Hown j l Hj) as Ho.
    unfold mutex_acquisitions, mutex_releases.
    unfold mutex_local_ok, in_critical, at_acquire, Mutex.finished in *.
    destruct (Mutex.line l); simpl in *;
      (split_and!; [lia | lia | first [tauto | intros Hm; apply Ho in Hm; discriminate] | ..]);
      try assumption.
  - intros j j' l l' Hj Hj' Hl Hl'.
    apply in_loop_critical, (Hown j l Hj) in Hl.
    apply in_loop_critical, (Hown j' l' Hj') in Hl'. congruence.
  - intros j j' l Hj Hl Hne. apply in_loop_critical, (Hown j l Hj) in Hl.
    unfold Mutex.step, Mutex.step_in. simpl. unfold Harness.worker_step.
    destruct (Harness.threads s !! j') as [l'|] eqn:Hj'; [|reflexivity].
    pose proof (Hown j' l' Hj') as Ho'. rewrite Hl in Ho'.
    unfold Mutex.increment, in_critical in *.
    destruct (Mutex.line l'); try reflexivity;
      try (exfalso; assert (Some j = Some j') as [= ->] by tauto; congruence).
    rewrite Hl. destruct (Nat.eqb_spec j j'); [congruence|reflexivity].
Qed.

(** C3.  In the mutex program a worker locks the mutex once, before its
    loop, owns it during the whole loop and unlocks it once, after the last
    of its [iterations] rounds; so the loops of two workers never overlap:
    while one worker is inside its loop no other worker can move.  When the
    run has terminated every worker has locked the mutex exactly once,
    written the counter [iterations] times and unlocked the mutex exactly
    once.  And the workers do get there: when the product fits the counter
    every run terminates, with the mutex free, and every state a schedule
    leads to can be continued to a terminated one, in which every worker
    has locked once, made its [iterations] rounds and unlocked once. *)
Theorem mutex_is_held_for_the_whole_loop (n k : Z) (sched : list tid) (s : Mutex.state) :
  Int.in_range n -> Int.in_range k -> 1 <= n -> 0 <= k ->
  Mutex.exec sched (Mutex.start n k) = Ok s ->
  lock_discipline k sched (Mutex.start n k) s /\
  (Harness.terminated s ->
   forall j, (j < Z.to_nat n)%nat ->
     mutex_acquisitions j sched (Mutex.start n k) = 1%nat /\
     mutex_writes_by j sched (Mutex.start n k) = Z.to_nat k /\
     mutex_releases j sched (Mutex.start n k) = 1%nat) /\
  (n * k <= Int.INT_MAX ->
   every_run Mutex.exec (Mutex.start n k)
     (fun s' => Mutex.m (Harness.glob s') = None /\
                length (Harness.threads s') = Z.to_nat n /\
                forall l, l ∈ Harness.threads s' ->
                          Mutex.finished l = true /\ Mutex.i l = k) /\
   exists sched' s',
     Mutex.exec (sched ++ sched') (Mutex.start n k) = Ok s' /\
     Harness.terminated s' /\
     forall j, (j < Z.to_nat n)%nat ->
       mutex_acquisitions j (sched ++ sched') (Mutex.start n k) = 1%nat /\
       mutex_writes_by j (sched ++ sched') (Mutex.start n k) = Z.to_nat k /\
       mutex_releases j (sched ++ sched') (Mutex.start n k) = 1%nat).
Proof.
  intros [_ Hn] [_ Hk] Hn1 Hk0 Hs.
  assert (0 <= n) as Hn0 by lia.
  assert (0 <= k <= Int.INT_MAX) as Hk' by lia.
  destruct (mutex_lock_discipline_holds n k sched s Hn0 Hk' Hs) as [Hdisc Hterm].
  split_and!; [exact Hdisc|exact Hterm|].
  intros Hfit.
  assert (every_run Mutex.exec (Mutex.start n k)
            (fun s' => Mutex.m (Harness.glob s') = None /\
                       length (Harness.threads s') = Z.to_nat n /\
                       forall l, l ∈ Harness.threads s' ->
                                 Mutex.finished l = true /\ Mutex.i l = k)) as Hrun.
  { eapply every_run_weaken.
    - apply (mutex_run_spec n k (seq 0)); [lia|lia|exact Hfit|reflexivity].
    - intros sched1 s1 Hs1 Ht1 (_ & _ & _ & Hlen & Hm & Hi). split_and!; try assumption.
      intros l Hl. split; [|exact (Hi l Hl)].
      rewrite <- (Z2Nat.id n) in Hs1 by lia.
      pose proof (mutex_reach_inv (Z.to_nat n) k Hk' (seq 0) (seq_perm_refl _) sched1 s1 Hs1)
        as Hinv.
      destruct (inv_terminated _ _ _ _ _ _ s1 Hinv Ht1) as (_ & _ & Hall & _).
      exact (Hall l Hl). }
  split; [exact Hrun|].
  destruct Hrun as (Hgo & _).
  destruct (Hgo sched s Hs) as (sched' & s' & Hs' & Ht').
  exists sched', s'. split_and!; [exact Hs'|exact Ht'|].
  exact (proj2 (mutex_lock_discipline_holds n k (sched ++ sched') s' Hn0 Hk' Hs') Ht').
Qed.

Lemma mutex_is_held_for_the_whole_loop_witness :
  exists s,
    Mutex.exec [Main; Main; Worker 1; Worker 1; Worker 1] (Mutex.start 2 1) = Ok s /\
    lock_discipline 1 [Main; Main; Worker 1; Worker 1; Worker 1] (Mutex.start 2 1) s /\
    exists sched' s',
      Mutex.exec ([Main; Main; Worker 1; Worker 1; Worker 1] ++ sched') (Mutex.start 2 1)
        = Ok s' /\
      Harness.terminated s' /\
      forall j, (j < Z.to_nat 2)%nat ->
        mutex_acquisitions j ([Main; Main; Worker 1; Worker 1; Worker 1] ++ sched')
          (Mutex.start 2 1) = 1%nat /\
        mutex_writes_by j ([Main; Main; Worker 1; Worker 1; Worker 1] ++ sched')
          (Mutex.start 2 1) = Z.to_nat 1 /\
        mutex_releases j ([Main; Main; Worker 1; Worker 1; Worker 1] ++ sched')
          (Mutex.start 2 1) = 1%nat.
Proof.
  eexists. split; [vm_compute; reflexivity|].
  destruct (mutex_is_held_for_the_whole_loop 2 1 [Main; Main; Worker 1; Worker 1; Worker 1] _
              ltac:(unfold Int.in_range, Int.INT_MIN, Int.INT_MAX; lia)
              ltac:(unfold Int.in_range, Int.INT_MIN, Int.INT_MAX; lia)
              ltac:(lia) ltac:(lia) eq_refl) as (Hdisc & _ & Hgo).
  split; [exact Hdisc|].
  apply Hgo. unfold Int.INT_MAX. lia.
Defined.

(** C6.  The workers all run the same lambda and take no argument, so a
    permutation of the order in which they are created gives the same
    vector of threads; the order in which they are joined is the parameter
    [order] of the model.  For every permutation of the workers the
    program that joins them in that order ends with the same count as the
    program as it is. *)
Theorem count_is_independent_of_order (n k : Z) (order : nat -> list nat) :
  Int.in_range n -> Int.in_range k -> 1 <= n -> 0 <= k ->
  order (Z.to_nat n) ≡ₚ seq 0 (Z.to_nat n) ->
  order_independent n k order.
Proof.
  intros [_ Hn] [_ Hk] Hn1 Hk0 Hperm.
  assert (0 <= k <= Int.INT_MAX) as Hk' by lia.
  unfold order_independent. split_and!.
  - intros sched1 sched2 s1 s2 H1 T1 H2 T2.
    rewrite (mutex_terminated_count n k order sched1 s1),
            (mutex_terminated_count n k (seq 0) sched2 s2);
      (reflexivity || lia || assumption).
  - intros sched1 sched2 s1 s2 H1 T1 H2 T2.
    rewrite (atomic_terminated_count n k order sched1 s1),
            (atomic_terminated_count n k (seq 0) sched2 s2);
      (reflexivity || lia || assumption).
  - eapply every_run_weaken.
    + apply (atomic_run_spec n k order); [lia|exact Hk'|exact Hperm].
    + simpl. tauto.
  - intros Hfit. eapply every_run_weaken.
    + apply (mutex_run_spec n k order); [lia|exact Hk'|exact Hfit|exact Hperm].
    + simpl. tauto.
Qed.

Lemma count_is_independent_of_order_witness :
  order_independent 2 3 (fun m => rev (seq 0 m)).
Proof.
  apply (count_is_independent_of_order 2 3 (fun m => rev (seq 0 m)));
    [unfold Int.in_range, Int.INT_MIN, Int.INT_MAX; lia
    |unfold Int.in_range, Int.INT_MIN, Int.INT_MAX; lia
    |lia|lia|apply perm_swap].
Defined.






(** * Further properties *)

(** ** A program that creates no thread *)

Section NoThreads.

Context {G L : Type}.
Variable thread_count : G -> Z.
Variable body : nat -> G -> L -> result (G * L).
Variable entry : L.
Variable finished : L -> bool.
Variable join_order : nat -> list nat.
Variable report : G -> string.

Abbreviation state := (Harness.state G L).
Abbreviation step := (Harness.step thread_count body entry finished join_order report).
Abbreviation exec := (Harness.exec thread_count body entry finished join_order report).

Variable g0 : G.
Variable o0 : string.
Hypothesis no_threads : thread_count g0 <= 0.
Hypothesis order_nil : join_order 0%nat = [].

Abbreviation nt_inv := (no_thread_inv report g0 o0).

(** Only [main] can move, and each of its moves takes it one position
    further. *)
Lemma no_thread_step (t : tid) (s : state) :
  nt_inv s ->
  match step t s with
  | Ok s' => t = Main /\ nt_inv s' /\
             main_index (Harness.pc s') = S (main_index (Harness.pc s))
  | Stuck => True
  | Undef => False
  end.
Proof.
  intros (Hg & Hw & Hp). destruct s as [g ws p o]. simpl in *. subst g ws.
  destruct t as [|k]; simpl; [|exact I].
  unfold Harness.main_step, no_thread_inv. simpl.
  destruct p as [i|[|k rest]| | |c]; simpl.
  - destruct Hp as [-> ->]. destruct (Z.ltb_spec 0 (thread_count g0)); [lia|].
    simpl. rewrite order_nil. repeat split.
  - destruct Hp as [_ ->]. repeat split.
  - destruct Hp as [[=] _].
  - subst o. repeat split.
  - subst o. repeat split.
  - exact I.
Qed.

Lemma no_thread_exec (sched : list tid) (s : state) :
  nt_inv s ->
  match exec sched s with
  | Ok s' => nt_inv s' /\
             main_index (Harness.pc s') = (main_index (Harness.pc s) + length sched)%nat /\
             sched = repeat Main (length sched)
  | Stuck => True
  | Undef => False
  end.
Proof.
  revert s. induction sched as [|t sched IH]; intros s Hs; simpl.
  - split_and!; [exact Hs|lia|reflexivity].
  - pose proof (no_thread_step t s Hs) as Ht.
    destruct (step t s) as [s1| |]; [|exact I|exact Ht].
    destruct Ht as (-> & Hs1 & Hidx). specialize (IH s1 Hs1).
    destruct (exec sched s1) as [s2| |]; [|exact I|exact IH].
    destruct IH as (Hs2 & Hidx2 & Hrep). split_and!; [exact Hs2|lia|].
    f_equal. exact Hrep.
Qed.

Lemma exec_cons (t : tid) (sched : list tid) (s : state) :
  exec (t :: sched) s =
  match step t s with
  | Ok s' => exec sched s'
  | Stuck => Stuck
  | Undef => Undef
  end.
Proof. reflexivity. Qed.

Lemma main_index_le (p : main_pc) : (main_index p <= 4)%nat.
Proof. destruct p; simpl; lia. Qed.

Lemma no_thread_completes (s : state) :
  nt_inv s -> exists sched s', exec sched s = Ok s' /\ Harness.terminated s'.
Proof.
  intros Hs.
  assert (forall fuel s, nt_inv s -> (4 - main_index (Harness.pc s) <= fuel)%nat ->
            exists sched s', exec sched s = Ok s' /\ Harness.terminated s') as Hgo.
  { clear s Hs. induction fuel as [|fuel IH]; intros s Hs Hle.
    - exists [], s. split; [reflexivity|].
      destruct (Harness.pc s) as [i|rest| | |c] eqn:Hpc; simpl in Hle; try lia.
      exists c. exact Hpc.
    - destruct (Harness.pc s) as [i|rest| | |c] eqn:Hpc.
      5: { exists [], s. split; [reflexivity|]. exists c. exact Hpc. }
      all: pose proof (no_thread_step Main s Hs) as Ht;
           destruct (step Main s) as [s1| |] eqn:E;
           [ destruct Ht as (_ & Hs1 & Hidx);
             destruct (IH s1 Hs1) as (sched & s' & He & Hterm);
             [rewrite Hidx, Hpc; simpl in *; lia|];
             exists (Main :: sched), s'; rewrite exec_cons, E; auto
           | exfalso | contradiction ].
      all: destruct Hs as (Hg & Hw & Hp); destruct s as [g ws p o]; simpl in *; subst;
           unfold Harness.main_step in E; simpl in E.
      + destruct Hp as [-> _]. destruct (0 <? thread_count g0); discriminate.
      + destruct Hp as [-> _]. discriminate.
      + discriminate.
      + discriminate. }
  apply (Hgo 4%nat s Hs). lia.
Qed.

(** Every run of a program whose thread count is not positive is made of
    at most four moves of [main]; it ends with the globals untouched, no
    thread created and the report printed. *)
Lemma no_thread_every_run :
  every_run exec (Harness.init g0 o0)
    (fun s => Harness.glob s = g0 /\ Harness.threads s = [] /\
              Harness.out s = String.append o0 (report g0) /\
              Harness.exit_code s = Some 0).
Proof.
  assert (nt_inv (Harness.init g0 o0 : state)) as Hi.
  { unfold no_thread_inv. simpl. auto. }
  unfold every_run. split_and!.
  - intros sched s Hs. pose proof (no_thread_exec sched _ Hi) as H. rewrite Hs in H.
    destruct H as (HsI & _ & _).
    destruct (no_thread_completes s HsI) as (sched' & s' & Hs' & Ht).
    exists sched', s'. split; [|exact Ht]. rewrite exec_app, Hs. exact Hs'.
  - exists 4%nat. intros sched s Hs. pose proof (no_thread_exec sched _ Hi) as H.
    rewrite Hs in H. destruct H as (_ & Hidx & _).
    pose proof (main_index_le (Harness.pc s)). simpl in Hidx. lia.
  - intros sched Hu. pose proof (no_thread_exec sched _ Hi) as H. rewrite Hu in H. exact H.
  - intros sched s Hs [c Hc]. pose proof (no_thread_exec sched _ Hi) as H.
    rewrite Hs in H. destruct H as ((Hg & Hw & Hp) & _ & _).
    unfold Harness.exit_code. rewrite Hc in *. destruct Hp as [-> Ho]. auto.
Qed.

End NoThreads.

(** ** The two counter programs at the edges of their configuration *)

(** X6.  With [threadCount <= 0], whatever [iterations] is, no thread is
    created: a run is made of moves of [main] only, and every run of either
    program terminates with an empty vector, the counter at [0], the line
    [Counter: 0] printed and the exit code [0]. *)
Theorem nonpositive_thread_count_creates_no_thread (n k : Z) :
  n <= 0 ->
  every_run Mutex.exec (Mutex.start n k)
    (fun s => Harness.threads s = [] /\ Mutex.counter (Harness.glob s) = 0 /\
              Harness.out s = String.append "Counter: 0" endl /\
              Harness.exit_code s = Some 0) /\
  every_run Atomic.exec (Atomic.start n k)
    (fun s => Harness.threads s = [] /\ Atomic.counter (Harness.glob s) = 0 /\
              Harness.out s = String.append "Counter: 0" endl /\
              Harness.exit_code s = Some 0) /\
  (forall sched s, Mutex.exec sched (Mutex.start n k) = Ok s ->
     sched = repeat Main (length sched)) /\
  (forall sched s, Atomic.exec sched (Atomic.start n k) = Ok s ->
     sched = repeat Main (length sched)).
Proof.
  intros Hn. split_and!.
  - eapply every_run_weaken.
    + apply (no_thread_every_run Mutex.threadCount Mutex.increment Mutex.entry Mutex.finished
               (seq 0) Mutex.report _ EmptyString); [exact Hn|reflexivity].
    + simpl. intros sched s _ _ (Hg & Hw & Ho & Hx). rewrite Hg. simpl. auto.
  - eapply every_run_weaken.
    + apply (no_thread_every_run Atomic.threadCount Atomic.increment Atomic.entry
               Atomic.finished (seq 0) Atomic.report _ EmptyString); [exact Hn|reflexivity].
    + simpl. intros sched s _ _ (Hg & Hw & Ho & Hx). rewrite Hg. simpl. auto.
  - intros sched s Hs.
    pose proof (no_thread_exec Mutex.threadCount Mutex.increment Mutex.entry Mutex.finished
                  (seq 0) Mutex.report (Harness.glob (Mutex.start n k)) EmptyString Hn eq_refl
                  sched (Mutex.start n k)) as H.
    unfold Mutex.exec, Mutex.exec_in in Hs. rewrite Hs in H. apply H.
    unfold no_thread_inv. simpl. auto.
  - intros sched s Hs.
    pose proof (no_thread_exec Atomic.threadCount Atomic.increment Atomic.entry
                  Atomic.finished (seq 0) Atomic.report (Harness.glob (Atomic.start n k))
                  EmptyString Hn eq_refl sched (Atomic.start n k)) as H.
    unfold Atomic.exec, Atomic.exec_in in Hs. rewrite Hs in H. apply H.
    unfold no_thread_inv. simpl. auto.
Qed.

Lemma nonpositive_thread_count_creates_no_thread_witness :
  every_run Mutex.exec (Mutex.start (-3) 1000000)
    (fun s => Harness.threads s = [] /\ Mutex.counter (Harness.glob s) = 0 /\
              Harness.out s = String.append "Counter: 0" endl /\
              Harness.exit_code s = Some 0) /\
  every_run Atomic.exec (Atomic.start (-3) 1000000)
    (fun s => Harness.threads s = [] /\ Atomic.counter (Harness.glob s) = 0 /\
              Harness.out s = String.append "Counter: 0" endl /\
              Harness.exit_code s = Some 0) /\
  (forall sched s, Mutex.exec sched (Mutex.start (-3) 1000000) = Ok s ->
     sched = repeat Main (length sched)) /\
  (forall sched s, Atomic.exec sched (Atomic.start (-3) 1000000) = Ok s ->
     sched = repeat Main (length sched)).
Proof. apply (nonpositive_thread_count_creates_no_thread (-3) 1000000). lia. Defined.

(** ** Programs that differ in a global no move depends on *)

Section Simulation.

Context {G L : Type}.
Variable thread_count : G -> Z.
Variable body : nat -> G -> L -> result (G * L).
Variable entry : L.
Variable finished : L -> bool.
Variable join_order : nat -> list nat.
Variable report : G -> string.

Abbreviation state := (Harness.state G L).
Abbreviation step := (Harness.step thread_count body entry finished join_order report).
Abbreviation exec := (Harness.exec thread_count body entry finished join_order report).

(** [fg] changes the globals in a way that, in the states [R] the program
    reaches, no move of [main] or of a worker can tell. *)
Variable fg : G -> G.
Variable R : state -> Prop.

Hypothesis R_step : forall t s s', R s -> step t s = Ok s' -> R s'.
Hypothesis fg_count : forall g, thread_count (fg g) = thread_count g.
Hypothesis fg_report : forall g, report (fg g) = report g.
Hypothesis fg_body : forall s k l,
  R s -> Harness.threads s !! k = Some l ->
  body k (fg (Harness.glob s)) l =
  result_map (fun gl => (fg (fst gl), snd gl)) (body k (Harness.glob s) l).

Lemma sim_step (t : tid) (s : state) :
  R s -> step t (with_globals fg s) = result_map (with_globals fg) (step t s).
Proof.
  intros HR. destruct t as [|k]; simpl.
  - unfold Harness.main_step, with_globals. simpl. rewrite fg_count, fg_report.
    destruct (Harness.pc s) as [i|[|j rest]| | |c]; simpl; try reflexivity.
    + destruct (i <? thread_count (Harness.glob s)); [|reflexivity].
      destruct (Int.incr i); reflexivity.
    + destruct (Harness.threads s !! j) as [l|]; [|reflexivity].
      destruct (finished l); reflexivity.
  - unfold Harness.worker_step, with_globals. simpl.
    destruct (Harness.threads s !! k) as [l|] eqn:Hk; [|reflexivity].
    rewrite (fg_body s k l HR Hk).
    destruct (body k (Harness.glob s) l) as [[g' l']| |]; reflexivity.
Qed.

Lemma sim_exec (sched : list tid) (s : state) :
  R s -> exec sched (with_globals fg s) = result_map (with_globals fg) (exec sched s).
Proof.
  revert s. induction sched as [|t sched IH]; intros s HR; simpl; [reflexivity|].
  change (Harness.step thread_count body entry finished join_order report t
            (with_globals fg s)) with (step t (with_globals fg s)).
  rewrite (sim_step t s HR).
  destruct (Harness.step thread_count body entry finished join_order report t s)
    as [s1| |] eqn:E; simpl; try reflexivity.
  apply IH. exact (R_step t s s1 HR E).
Qed.

(** The two programs have the same runs. *)
Lemma sim_every_run (s0 : state) (Q : state -> Prop) :
  R s0 -> every_run exec s0 Q ->
  every_run exec (with_globals fg s0) (fun s' => exists s, s' = with_globals fg s /\ Q s).
Proof.
  intros HR (H1 & (bound & H2) & H3 & H4).
  assert (forall sched s', exec sched (with_globals fg s0) = Ok s' ->
            exists s, exec sched s0 = Ok s /\ s' = with_globals fg s) as Hback.
  { intros sched s' Hs'. rewrite (sim_exec sched s0 HR) in Hs'.
    destruct (exec sched s0) as [s| |]; try discriminate.
    injection Hs' as <-. eauto. }
  unfold every_run. split_and!.
  - intros sched s' Hs'. destruct (Hback sched s' Hs') as (s & Hs & ->).
    destruct (H1 sched s Hs) as (sched' & s1 & Hs1 & [c Hc]).
    exists sched', (with_globals fg s1). rewrite (sim_exec _ s0 HR), Hs1. simpl.
    split; [reflexivity|]. exists c. exact Hc.
  - exists bound. intros sched s' Hs'. destruct (Hback sched s' Hs') as (s & Hs & _). eauto.
  - intros sched Hu. rewrite (sim_exec sched s0 HR) in Hu.
    destruct (exec sched s0) as [s| |] eqn:E; try discriminate. exact (H3 sched E).
  - intros sched s' Hs' Ht. destruct (Hback sched s' Hs') as (s & Hs & ->).
    exists s. split; [reflexivity|]. apply (H4 sched s Hs). exact Ht.
Qed.

End Simulation.

(** A move keeps the invariants of the program it belongs to. *)
Lemma atomic_harness_step (n : nat) (k : Z) (order : nat -> list nat) t (s s' : Atomic.state) :
  0 <= k <= Int.INT_MAX -> order n ≡ₚ seq 0 n ->
  inv Atomic.finished order Atomic.report n EmptyString (atomic_inv n k) s ->
  Atomic.step_in order t s = Ok s' ->
  inv Atomic.finished order Atomic.report n EmptyString (atomic_inv n k) s'.
Proof.
  intros Hk Hperm.
  exact (inv_step Atomic.threadCount Atomic.increment Atomic.entry Atomic.finished
           order Atomic.report n EmptyString (atomic_inv n k)
           (atomic_inv_count n k) (atomic_inv_entry n k Hk)
           (atomic_inv_body n k) atomic_finished_stuck Hperm t s s').
Qed.

Lemma mutex_harness_step (n : nat) (k : Z) (order : nat -> list nat) t (s s' : Mutex.state) :
  0 <= k <= Int.INT_MAX -> order n ≡ₚ seq 0 n ->
  inv Mutex.finished order Mutex.report n EmptyString (mutex_inv n k) s ->
  Mutex.step_in order t s = Ok s' ->
  inv Mutex.finished order Mutex.report n EmptyString (mutex_inv n k) s'.
Proof.
  intros Hk Hperm.
  exact (inv_step Mutex.threadCount Mutex.increment Mutex.entry Mutex.finished
           order Mutex.report n EmptyString (mutex_inv n k)
           (mutex_inv_count n k) (mutex_inv_entry n k)
           (mutex_inv_body n k Hk) mutex_finished_stuck Hperm t s s').
Qed.

(** With [iterations <= 0] where [iterations = 0] was, a worker takes the
    same moves: the only test of [iterations] is [i < iterations] with
    [i = 0]. *)
Lemma atomic_nonpositive_iterations_body (n : nat) (k : Z) (s : Atomic.state) j l :
  k <= 0 ->
  inv Atomic.finished (seq 0) Atomic.report n EmptyString (atomic_inv n 0) s ->
  Harness.threads s !! j = Some l ->
  Atomic.increment j (atomic_set_iterations k (Harness.glob s)) l =
  result_map (fun gl => (atomic_set_iterations k (fst gl), snd gl))
             (Atomic.increment j (Harness.glob s) l).
Proof.
  intros Hk [(_ & Hit & _ & Hloc) _] Hj.
  assert (atomic_local_ok 0 l) as Hl by (apply Hloc, list_elem_of_lookup; eauto).
  destruct (Harness.glob s) as [tc it c]. destruct l as [ln i ms].
  unfold atomic_local_ok, Atomic.increment, atomic_set_iterations in *. simpl in *. subst it.
  destruct ln; simpl; try reflexivity.
  - assert (i = 0) as -> by lia.
    destruct (Z.ltb_spec 0 k); [lia|]. reflexivity.
  - destruct (Int.incr i); reflexivity.
Qed.

Lemma mutex_nonpositive_iterations_body (n : nat) (k : Z) (s : Mutex.state) j l :
  k <= 0 ->
  inv Mutex.finished (seq 0) Mutex.report n EmptyString (mutex_inv n 0) s ->
  Harness.threads s !! j = Some l ->
  Mutex.increment j (mutex_set_iterations k (Harness.glob s)) l =
  result_map (fun gl => (mutex_set_iterations k (fst gl), snd gl))
             (Mutex.increment j (Harness.glob s) l).
Proof.
  intros Hk [(_ & Hit & _ & Hloc & _) _] Hj.
  pose proof (Hloc j l Hj) as Hl.
  destruct (Harness.glob s) as [tc it c mx]. destruct l as [ln i tmp ms].
  unfold mutex_local_ok, Mutex.increment, mutex_set_iterations in *. simpl in *. subst it.
  destruct ln; simpl; try reflexivity.
  - destruct mx as [h|]; [|reflexivity]. destruct (Nat.eqb h j); reflexivity.
  - assert (i = 0) as -> by lia.
    destruct (Z.ltb_spec 0 k); [lia|]. reflexivity.
  - destruct (Int.incr tmp); reflexivity.
  - destruct (Int.incr i); reflexivity.
  - destruct mx as [h|]; [|reflexivity]. destruct (Nat.eqb h j); reflexivity.
Qed.

(** X7.  With [iterations <= 0] and [threadCount >= 0] the loop body of no
    worker is ever executed: every run of either program creates its
    threads, terminates with the counter at [0] and every worker's [i]
    still [0], prints [Counter: 0] and returns [0]. *)
Theorem nonpositive_iterations_count_zero (n k : Z) :
  Int.in_range n -> 0 <= n -> k <= 0 ->
  every_run Mutex.exec (Mutex.start n k)
    (fun s => Mutex.counter (Harness.glob s) = 0 /\
              Harness.out s = String.append "Counter: 0" endl /\
              Harness.exit_code s = Some 0 /\
              length (Harness.threads s) = Z.to_nat n /\
              forall l, l ∈ Harness.threads s -> Mutex.i l = 0) /\
  every_run Atomic.exec (Atomic.start n k)
    (fun s => Atomic.counter (Harness.glob s) = 0 /\
              Harness.out s = String.append "Counter: 0" endl /\
              Harness.exit_code s = Some 0 /\
              length (Harness.threads s) = Z.to_nat n /\
              forall l, l ∈ Harness.threads s -> Atomic.i l = 0).
Proof.
  intros [_ Hn] Hn0 Hk.
  assert (0 <= 0 <= Int.INT_MAX) as H0 by (unfold Int.INT_MAX; lia).
  split.
  - change (Mutex.start n k)
      with (with_globals (mutex_set_iterations k) (Mutex.start n 0)).
    eapply every_run_weaken.
    + apply (sim_every_run Mutex.threadCount Mutex.increment Mutex.entry Mutex.finished
               (seq 0) Mutex.report (mutex_set_iterations k)
               (inv Mutex.finished (seq 0) Mutex.report (Z.to_nat n) EmptyString
                    (mutex_inv (Z.to_nat n) 0))).
      * intros t s s'. apply (mutex_harness_step (Z.to_nat n) 0 (seq 0)); [exact H0|reflexivity].
      * reflexivity.
      * reflexivity.
      * intros s j l. apply mutex_nonpositive_iterations_body. exact Hk.
      * pose proof (mutex_reach_inv (Z.to_nat n) 0 H0 (seq 0) (seq_perm_refl _) []
                      (Mutex.start n 0)) as Hi.
        apply Hi. rewrite Z2Nat.id by lia. reflexivity.
      * apply (mutex_run_spec n 0 (seq 0)); [lia|exact H0|lia|reflexivity].
    + simpl. intros sched s' _ _ (s & -> & Hc & Ho & Hx & Hlen & _ & Hi).
      rewrite Z.mul_0_r in Hc. unfold with_globals. cbn [Harness.glob Harness.threads
        Harness.out Harness.pc Harness.exit_code mutex_set_iterations Mutex.counter].
      split_and!; try assumption.
      rewrite Ho. unfold Mutex.report. rewrite Hc. reflexivity.
  - change (Atomic.start n k)
      with (with_globals (atomic_set_iterations k) (Atomic.start n 0)).
    eapply every_run_weaken.
    + apply (sim_every_run Atomic.threadCount Atomic.increment Atomic.entry Atomic.finished
               (seq 0) Atomic.report (atomic_set_iterations k)
               (inv Atomic.finished (seq 0) Atomic.report (Z.to_nat n) EmptyString
                    (atomic_inv (Z.to_nat n) 0))).
      * intros t s s'. apply (atomic_harness_step (Z.to_nat n) 0 (seq 0)); [exact H0|reflexivity].
      * reflexivity.
      * reflexivity.
      * intros s j l. apply atomic_nonpositive_iterations_body. exact Hk.
      * pose proof (atomic_reach_inv (Z.to_nat n) 0 H0 (seq 0) (seq_perm_refl _) []
                      (Atomic.start n 0)) as Hi.
        apply Hi. rewrite Z2Nat.id by lia. reflexivity.
      * apply (atomic_run_spec n 0 (seq 0)); [lia|exact H0|reflexivity].
    + simpl. intros sched s' _ _ (s & -> & Hc & Ho & Hx & Hlen & Hi).
      rewrite Z.mul_0_r in Hc. unfold with_globals. cbn [Harness.glob Harness.threads
        Harness.out Harness.pc Harness.exit_code atomic_set_iterations Atomic.counter].
      split_and!; try assumption.
      rewrite Ho. unfold Atomic.report. rewrite Hc. reflexivity.
Qed.

Lemma nonpositive_iterations_count_zero_witness :
  every_run Mutex.exec (Mutex.start 100 (-1))
    (fun s => Mutex.counter (Harness.glob s) = 0 /\
              Harness.out s = String.append "Counter: 0" endl /\
              Harness.exit_code s = Some 0 /\
              length (Harness.threads s) = Z.to_nat 100 /\
              forall l, l ∈ Harness.threads s -> Mutex.i l = 0) /\
  every_run Atomic.exec (Atomic.start 100 (-1))
    (fun s => Atomic.counter (Harness.glob s) = 0 /\
              Harness.out s = String.append "Counter: 0" endl /\
              Harness.exit_code s = Some 0 /\
              length (Harness.threads s) = Z.to_nat 100 /\
              forall l, l ∈ Harness.threads s -> Atomic.i l = 0).
Proof.
  apply (nonpositive_iterations_count_zero 100 (-1));
    unfold Int.in_range, Int.INT_MIN, Int.INT_MAX; lia.
Defined.

(** ** Counting without wrap-around *)

(** Case analysis on a move [Hb : body j g l = Ok (g', l')] of a worker
    whose position is known. *)
Ltac move_cases Hb :=
  repeat match type of Hb with
         | context [Z.ltb ?a ?b] => destruct (Z.ltb_spec a b)
         | context [Int.incr ?a] =>
             let E := fresh "E" in
             destruct (Int.incr a) eqn:E; [apply incr_Some in E as [? ->]|]
         | context [match ?o with Some _ => _ | None => _ end] =>
             let E := fresh "E" in destruct o eqn:E
         | context [Nat.eqb ?a ?b] => destruct (Nat.eqb_spec a b)
         end;
  try discriminate; injection Hb as <- <-.

Section ExactCount.

Context {G L : Type}.
Variable thread_count : G -> Z.
Variable body : nat -> G -> L -> result (G * L).
Variable entry : L.
Variable finished : L -> bool.
Variable join_order : nat -> list nat.
Variable report : G -> string.

Abbreviation state := (Harness.state G L).
Abbreviation step := (Harness.step thread_count body entry finished join_order report).
Abbreviation exec := (Harness.exec thread_count body entry finished join_order report).
Abbreviation moves_from := (moves_from thread_count body entry finished join_order report).

Variable R : state -> Prop.
Hypothesis R_step : forall t s s', R s -> step t s = Ok s' -> R s'.

(** A property that every move keeps holds along every schedule. *)
Lemma exec_invariant (sched : list tid) (s s' : state) :
  R s -> exec sched s = Ok s' -> R s'.
Proof.
  revert s. induction sched as [|t sched IH]; intros s HR H; simpl in H.
  - injection H as <-. exact HR.
  - destruct (Harness.step thread_count body entry finished join_order report t s)
      as [s1| |] eqn:E; try discriminate.
    exact (IH s1 (R_step t s s1 HR E) H).
Qed.

(** A quantity of the globals that, in the states [R], grows by one in the
    moves counted and is kept by the others counts them. *)
Variable P : nat -> L -> bool.
Variable psi : G -> Z.
Hypothesis psi_body : forall s k l g' l',
  R s -> Harness.threads s !! k = Some l -> body k (Harness.glob s) l = Ok (g', l') ->
  psi g' = psi (Harness.glob s) + (if P k l then 1 else 0).

Lemma exact_count (sched : list tid) (s s' : state) :
  R s -> exec sched s = Ok s' ->
  psi (Harness.glob s') = psi (Harness.glob s) + Z.of_nat (moves_from P sched s).
Proof.
  revert s. induction sched as [|t sched IH]; intros s HR H; simpl in *.
  - injection H as <-. lia.
  - destruct (Harness.step thread_count body entry finished join_order report t s)
      as [s1| |] eqn:E; try discriminate.
    rewrite (IH s1 (R_step t s s1 HR E) H), Nat2Z.inj_add.
    destruct t as [|k]; simpl in E.
    + apply main_step_frame in E as [-> _]. simpl. lia.
    + apply worker_step_Ok in E as (l & g' & l' & Hk & Hb & ->). simpl.
      rewrite (local_of_Some _ k s l Hk), (psi_body s k l g' l' HR Hk Hb).
      destruct (P k l); lia.
Qed.

End ExactCount.

(** X2.  In the mutex program the plain counter is, in every state of
    every run, exactly the number of [counter++] writes executed so far:
    no write overwrites another. *)
Theorem mutex_counter_counts_its_writes (n k : Z) (sched : list tid) (s : Mutex.state) :
  Int.in_range n -> Int.in_range k -> 0 <= n -> 0 <= k ->
  Mutex.exec sched (Mutex.start n k) = Ok s ->
  Mutex.counter (Harness.glob s) = Z.of_nat (mutex_writes sched (Mutex.start n k)).
Proof.
  intros [_ Hn] [_ Hk] Hn0 Hk0 Hs.
  assert (0 <= k <= Int.INT_MAX) as Hk' by lia.
  assert (forall (s : Mutex.state) j l g' l',
            inv Mutex.finished (seq 0) Mutex.report (Z.to_nat n) EmptyString
                (mutex_inv (Z.to_nat n) k) s ->
            Harness.threads s !! j = Some l ->
            Mutex.increment j (Harness.glob s) l = Ok (g', l') ->
            Mutex.counter g' =
            Mutex.counter (Harness.glob s) + (if at_write l then 1 else 0)) as Hbody.
  { clear. intros s j l g' l' [(_ & _ & _ & Hloc & _ & Htmp & _) _] Hj Hb.
    pose proof (Hloc j l Hj) as Hl. pose proof (Htmp j l Hj) as Ht.
    destruct (Harness.glob s) as [tc it c mx]. destruct l as [ln i tmp ms].
    unfold Mutex.increment, Mutex.goto, mutex_local_ok, at_write in *. simpl in *.
    destruct ln; simpl in *; move_cases Hb; simpl; try lia.
    rewrite Ht by reflexivity. lia. }
  pose proof (exact_count Mutex.threadCount Mutex.increment Mutex.entry Mutex.finished
                (seq 0) Mutex.report
                (inv Mutex.finished (seq 0) Mutex.report (Z.to_nat n) EmptyString
                     (mutex_inv (Z.to_nat n) k))
                (fun t s s' => mutex_harness_step (Z.to_nat n) k (seq 0) t s s' Hk'
                                 (seq_perm_refl _))
                (fun _ l => at_write l) Mutex.counter Hbody sched (Mutex.start n k) s)
    as Hcount.
  unfold mutex_writes. rewrite Hcount; [reflexivity| |exact Hs].
  pose proof (mutex_reach_inv (Z.to_nat n) k Hk' (seq 0) (seq_perm_refl _) []
                (Mutex.start n k)) as Hi.
  apply Hi. rewrite Z2Nat.id by lia. reflexivity.
Qed.

Lemma mutex_counter_counts_its_writes_witness :
  exists s,
    Mutex.exec (serial 3 13) (Mutex.start 3 2) = Ok s /\
    Mutex.counter (Harness.glob s) = Z.of_nat (mutex_writes (serial 3 13) (Mutex.start 3 2)).
Proof.
  eexists. split; [vm_compute; reflexivity|].
  apply (mutex_counter_counts_its_writes 3 2 (serial 3 13));
    [unfold Int.in_range, Int.INT_MIN, Int.INT_MAX; lia
    |unfold Int.in_range, Int.INT_MIN, Int.INT_MAX; lia
    |lia|lia|vm_compute; reflexivity].
Defined.

Lemma feature_harness_step (cplusplus : Z) t (s s' : FeatureTest.state) :
  inv FeatureTest.finished (seq 0) (FeatureTest.report cplusplus) 5
      (FeatureTest.banner cplusplus) feature_inv s ->
  FeatureTest.step cplusplus t s = Ok s' ->
  inv FeatureTest.finished (seq 0) (FeatureTest.report cplusplus) 5
      (FeatureTest.banner cplusplus) feature_inv s'.
Proof.
  exact (inv_step FeatureTest.thread_count FeatureTest.worker FeatureTest.entry
           FeatureTest.finished (seq 0) (FeatureTest.report cplusplus) 5
           (FeatureTest.banner cplusplus) feature_inv
           feature_inv_count feature_inv_entry feature_inv_body feature_finished_stuck
           (seq_perm_refl _) t s s').
Qed.

(** The counter of the probe never wraps: it is the number of calls
    performed, at most 5000, and less while a call is pending. *)
Lemma feature_counter_room g ws :
  feature_inv g ws -> (length ws <= 5)%nat ->
  FeatureTest.counter g = total feature_performed ws /\
  0 <= FeatureTest.counter g <= 5000 /\
  forall j l, ws !! j = Some l -> FeatureTest.line l = FeatureTest.CallIncrement ->
              FeatureTest.counter g < 5000.
Proof.
  intros (Hcnt & Hloc) Hle.
  assert (forall l, l ∈ ws -> 0 <= feature_performed l <= 1000) as Hper.
  { intros l Hl. specialize (Hloc l Hl). unfold feature_local_ok, feature_performed in *.
    destruct (FeatureTest.line l); lia. }
  pose proof (total_bounds feature_performed 0 1000 ws Hper) as Hb.
  assert (FeatureTest.counter g = total feature_performed ws) as Hc.
  { rewrite Hcnt. apply wrap_in_range. unfold Int.in_range, Int.INT_MIN, Int.INT_MAX. lia. }
  split_and!; [exact Hc|lia|lia|].
  intros j l Hj Hline.
  assert (total feature_performed ws < 1000 * Z.of_nat (length ws)).
  { apply (total_below feature_performed 1000 ws j l); [|exact Hj|].
    - intros l0 Hl0. apply Hper. exact Hl0.
    - assert (feature_local_ok l) as Hl by (apply Hloc, list_elem_of_lookup; eauto).
      unfold feature_local_ok, feature_performed in *. rewrite Hline in *. lia. }
  lia.
Qed.

(** X9.  In the feature probe the counter is, in every state of every run,
    exactly the number of [increment()] calls executed so far; it stays
    between [0] and [5000], and a pending [increment()] adds exactly one:
    the atomic counter never wraps around. *)
Theorem feature_counter_counts_its_calls (cplusplus : Z) (sched : list tid)
    (s : FeatureTest.state) :
  FeatureTest.exec cplusplus sched (FeatureTest.test_features cplusplus) = Ok s ->
  FeatureTest.counter (Harness.glob s) =
    Z.of_nat (feature_calls cplusplus sched (FeatureTest.test_features cplusplus)) /\
  0 <= FeatureTest.counter (Harness.glob s) <= 5000 /\
  (forall j l, Harness.threads s !! j = Some l ->
     FeatureTest.line l = FeatureTest.CallIncrement ->
     FeatureTest.counter (FeatureTest.increment (Harness.glob s)) =
       FeatureTest.counter (Harness.glob s) + 1).
Proof.
  intros Hs.
  pose proof (feature_reach_inv cplusplus (seq 0) (seq_perm_refl _) sched s Hs) as Hi.
  pose proof Hi as [HI Hm].
  destruct (feature_counter_room _ _ HI (main_inv_length _ _ _ _ _ s Hm)) as (_ & Hr & Hlt).
  assert (forall (s : FeatureTest.state) j l g' l',
            inv FeatureTest.finished (seq 0) (FeatureTest.report cplusplus) 5
                (FeatureTest.banner cplusplus) feature_inv s ->
            Harness.threads s !! j = Some l ->
            FeatureTest.worker j (Harness.glob s) l = Ok (g', l') ->
            FeatureTest.counter g' =
            FeatureTest.counter (Harness.glob s) + (if at_call l then 1 else 0)) as Hbody.
  { clear. intros s j l g' l' [HI Hm] Hj Hb.
    destruct (feature_counter_room _ _ HI (main_inv_length _ _ _ _ _ s Hm)) as (_ & Hr & Hlt).
    specialize (Hlt j l Hj).
    destruct (Harness.glob s) as [c]. destruct l as [ln i].
    unfold FeatureTest.worker, FeatureTest.increment, at_call in *. simpl in *.
    destruct ln; simpl in *; move_cases Hb; simpl; try lia.
    unfold Int.fetch_add. apply wrap_in_range.
    specialize (Hlt eq_refl). unfold Int.in_range, Int.INT_MIN, Int.INT_MAX. lia. }
  split_and!.
  - pose proof (exact_count FeatureTest.thread_count FeatureTest.worker FeatureTest.entry
                  FeatureTest.finished (seq 0) (FeatureTest.report cplusplus)
                  (inv FeatureTest.finished (seq 0) (FeatureTest.report cplusplus) 5
                       (FeatureTest.banner cplusplus) feature_inv)
                  (feature_harness_step cplusplus)
                  (fun _ l => at_call l) FeatureTest.counter Hbody sched
                  (FeatureTest.test_features cplusplus) s) as Hcount.
    unfold feature_calls. rewrite Hcount; [reflexivity| |exact Hs].
    exact (feature_reach_inv cplusplus (seq 0) (seq_perm_refl _) [] _ eq_refl).
  - lia.
  - lia.
  - intros j l Hj Hline. specialize (Hlt j l Hj Hline).
    unfold FeatureTest.increment, Int.fetch_add. simpl. apply wrap_in_range.
    unfold Int.in_range, Int.INT_MIN, Int.INT_MAX. lia.
Qed.

Lemma feature_counter_counts_its_calls_witness :
  exists s,
    FeatureTest.exec 201703 (take 40 (serial 5 3001))
      (FeatureTest.test_features 201703) = Ok s /\
    FeatureTest.counter (Harness.glob s) =
      Z.of_nat (feature_calls 201703 (take 40 (serial 5 3001))
                  (FeatureTest.test_features 201703)) /\
    0 <= FeatureTest.counter (Harness.glob s) <= 5000 /\
    (forall j l, Harness.threads s !! j = Some l ->
       FeatureTest.line l = FeatureTest.CallIncrement ->
       FeatureTest.counter (FeatureTest.increment (Harness.glob s)) =
         FeatureTest.counter (Harness.glob s) + 1).
Proof.
  eexists. split; [vm_compute; reflexivity|].
  apply (feature_counter_counts_its_calls 201703 (take 40 (serial 5 3001))).
  vm_compute. reflexivity.
Defined.

(** ** Waiting *)

(** X5.  A worker of the atomic program, and of the feature probe, never
    waits: in every state of every run each worker that exists and has not
    returned can move.  A worker of the mutex program may have to wait. *)
Theorem atomic_workers_never_wait :
  (forall n k sched (s : Atomic.state) j l,
     Int.in_range n -> Int.in_range k -> 0 <= n -> 0 <= k ->
     Atomic.exec sched (Atomic.start n k) = Ok s ->
     Harness.threads s !! j = Some l -> Atomic.finished l = false ->
     exists s', Atomic.step (Worker j) s = Ok s') /\
  (forall cplusplus sched (s : FeatureTest.state) j l,
     FeatureTest.exec cplusplus sched (FeatureTest.test_features cplusplus) = Ok s ->
     Harness.threads s !! j = Some l -> FeatureTest.finished l = false ->
     exists s', FeatureTest.step cplusplus (Worker j) s = Ok s') /\
  (exists (s : Mutex.state) l,
     Mutex.exec [Main; Main; Worker 1] (Mutex.start 2 1) = Ok s /\
     Harness.threads s !! 0%nat = Some l /\ Mutex.finished l = false /\
     Mutex.step (Worker 0) s = Stuck).
Proof.
  split_and!.
  - intros n k sched s j l [_ Hn] [_ Hk] Hn0 Hk0 Hs Hj Hnf.
    assert (0 <= k <= Int.INT_MAX) as Hk' by lia.
    rewrite <- (Z2Nat.id n) in Hs by lia.
    pose proof (atomic_reach_inv (Z.to_nat n) k Hk' (seq 0) (seq_perm_refl _) sched s Hs)
      as [(_ & Hit & _ & Hloc) _].
    assert (atomic_local_ok k l) as Hl by (apply Hloc, list_elem_of_lookup; eauto).
    destruct (atomic_body_cases k Hk' (Harness.glob s) l j Hit Hl)
      as [Hf|(g' & l' & Hb & _)]; [congruence|].
    unfold Atomic.step, Atomic.step_in. simpl. unfold Harness.worker_step.
    rewrite Hj, Hb. eauto.
  - intros cplusplus sched s j l Hs Hj Hnf.
    pose proof (feature_reach_inv cplusplus (seq 0) (seq_perm_refl _) sched s Hs)
      as [(_ & Hloc) _].
    assert (feature_local_ok l) as Hl by (apply Hloc, list_elem_of_lookup; eauto).
    destruct (feature_body_cases (Harness.glob s) l j Hl)
      as [Hf|(g' & l' & Hb & _)]; [congruence|].
    unfold FeatureTest.step, FeatureTest.step_in. simpl. unfold Harness.worker_step.
    rewrite Hj, Hb. eauto.
  - eexists _, _. split; [vm_compute; reflexivity|].
    split; [vm_compute; reflexivity|]. split; reflexivity.
Qed.

Lemma atomic_workers_never_wait_witness :
  exists s,
    Atomic.exec [Main; Main; Worker 1] (Atomic.start 2 1) = Ok s /\
    exists s', Atomic.step (Worker 0) s = Ok s'.
Proof.
  eexists. split; [vm_compute; reflexivity|].
  eapply (proj1 atomic_workers_never_wait 2 1 [Main; Main; Worker 1]);
    [unfold Int.in_range, Int.INT_MIN, Int.INT_MAX; lia
    |unfold Int.in_range, Int.INT_MIN, Int.INT_MAX; lia
    |lia|lia|vm_compute; reflexivity|vm_compute; reflexivity|reflexivity].
Defined.

(** ** The vector of threads *)

(** X8.  In either counter program, for [threadCount >= 0]: the vector of
    threads never holds more than [threadCount] threads; while [main] is in
    its first loop its [i] is the size of the vector; and from the end of
    that loop on the vector holds exactly [threadCount] threads. *)
Theorem vector_holds_thread_count_threads (n k : Z) :
  Int.in_range n -> Int.in_range k -> 0 <= n -> 0 <= k ->
  (forall sched s, Mutex.exec sched (Mutex.start n k) = Ok s ->
     (length (Harness.threads s) <= Z.to_nat n)%nat /\
     match Harness.pc s with
     | Spawning i => i = Z.of_nat (length (Harness.threads s))
     | _ => length (Harness.threads s) = Z.to_nat n
     end) /\
  (forall sched s, Atomic.exec sched (Atomic.start n k) = Ok s ->
     (length (Harness.threads s) <= Z.to_nat n)%nat /\
     match Harness.pc s with
     | Spawning i => i = Z.of_nat (length (Harness.threads s))
     | _ => length (Harness.threads s) = Z.to_nat n
     end).
Proof.
  intros [_ Hn] [_ Hk] Hn0 Hk0.
  assert (0 <= k <= Int.INT_MAX) as Hk' by lia.
  split; intros sched s Hs; rewrite <- (Z2Nat.id n) in Hs by lia.
  - pose proof (mutex_reach_inv (Z.to_nat n) k Hk' (seq 0) (seq_perm_refl _) sched s Hs)
      as [_ Hm].
    split; [exact (main_inv_length _ _ _ _ _ s Hm)|].
    unfold main_inv in Hm. destruct (Harness.pc s); tauto.
  - pose proof (atomic_reach_inv (Z.to_nat n) k Hk' (seq 0) (seq_perm_refl _) sched s Hs)
      as [_ Hm].
    split; [exact (main_inv_length _ _ _ _ _ s Hm)|].
    unfold main_inv in Hm. destruct (Harness.pc s); tauto.
Qed.

Lemma vector_holds_thread_count_threads_witness :
  (forall sched s, Mutex.exec sched Mutex.main = Ok s ->
     (length (Harness.threads s) <= Z.to_nat 100)%nat /\
     match Harness.pc s with
     | Spawning i => i = Z.of_nat (length (Harness.threads s))
     | _ => length (Harness.threads s) = Z.to_nat 100
     end) /\
  (forall sched s, Atomic.exec sched Atomic.main = Ok s ->
     (length (Harness.threads s) <= Z.to_nat 100)%nat /\
     match Harness.pc s with
     | Spawning i => i = Z.of_nat (length (Harness.threads s))
     | _ => length (Harness.threads s) = Z.to_nat 100
     end).
Proof.
  apply (vector_holds_thread_count_threads 100 1000000);
    unfold Int.in_range, Int.INT_MIN, Int.INT_MAX; lia.
Defined.

(** ** The feature probe: what its threads touch *)




(** ** The string built from the counter *)

Lemma mutex_sees_own_write_step (n : nat) (k : Z) t (s s' : Mutex.state) :
  0 <= k <= Int.INT_MAX ->
  inv Mutex.finished (seq 0) Mutex.report n EmptyString (mutex_inv n k) s /\
  (forall j l, Harness.threads s !! j = Some l -> mutex_sees_own_write (Harness.glob s) l) ->
  Mutex.step t s = Ok s' ->
  inv Mutex.finished (seq 0) Mutex.report n EmptyString (mutex_inv n k) s' /\
  (forall j l, Harness.threads s' !! j = Some l -> mutex_sees_own_write (Harness.glob s') l).
Proof.
  intros Hk [Hi He] Hstep.
  split; [exact (mutex_harness_step n k (seq 0) t s s' Hk (seq_perm_refl _) Hi Hstep)|].
  destruct Hi as [(_ & _ & _ & _ & Hown & _) _].
  destruct t as [|h]; simpl in Hstep.
  - apply main_step_frame in Hstep as [-> [-> | ->]]; [exact He|].
    intros j l Hj. apply lookup_app_Some in Hj as [Hj|[_ Hj]]; [exact (He j l Hj)|].
    apply list_lookup_singleton_Some in Hj as [_ <-]. exact I.
  - apply worker_step_Ok in Hstep as (l0 & g' & l' & Hh & Hb & ->). simpl.
    intros j l Hj. destruct (decide (j = h)) as [->|Hne].
    + rewrite list_lookup_insert_eq in Hj by (apply lookup_lt_is_Some_1; eauto).
      injection Hj as <-. pose proof (He h l0 Hh) as H0.
      destruct (Harness.glob s) as [tc it c mx]. destruct l0 as [ln i tmp ms].
      unfold Mutex.increment, Mutex.goto, mutex_sees_own_write in *. simpl in *.
      destruct ln; simpl in *; move_cases Hb; simpl; auto.
      split; [exact H0|]. rewrite H0. reflexivity.
    + rewrite list_lookup_insert_ne in Hj by congruence.
      pose proof (He j l Hj) as H0. pose proof (Hown j l Hj) as Hoj.
      pose proof (Hown h l0 Hh) as Hoh.
      unfold mutex_sees_own_write in *.
      destruct (Mutex.line l) eqn:El; try exact I;
        (assert (Mutex.m (Harness.glob s) = Some j) as Hm
           by (apply Hoj; unfold in_critical; rewrite El; reflexivity);
         assert (in_critical l0 = false) as Hc
           by (destruct (in_critical l0); [|reflexivity];
               assert (Some j = Some h) by (rewrite <- Hm; apply Hoh; reflexivity);
               congruence);
         destruct (Harness.glob s) as [tc it c mx]; destruct l0 as [ln i tmp ms];
         unfold Mutex.increment, in_critical in *; simpl in *; subst mx;
         destruct ln; try discriminate; simpl in Hb;
         destruct (Nat.eqb j h); discriminate).
Qed.

(** X3.  In the mutex program the counter a worker converts with
    [std::to_string] is the one its own [counter++] has just written: from
    the write to the end of the loop body the counter is the value the
    worker has read plus one, and [memeSmth] is the decimal of that value.
    In the atomic program the string may show the increment of another
    thread. *)
Theorem mutex_string_shows_own_write :
  (forall n k sched (s : Mutex.state) j l,
     Int.in_range n -> Int.in_range k -> 0 <= n -> 0 <= k ->
     Mutex.exec sched (Mutex.start n k) = Ok s ->
     Harness.threads s !! j = Some l -> mutex_sees_own_write (Harness.glob s) l) /\
  (exists (s : Atomic.state) l,
     Atomic.exec [Main; Main; Worker 0; Worker 0; Worker 1; Worker 1; Worker 0]
       (Atomic.start 2 1) = Ok s /\
     Harness.threads s !! 0%nat = Some l /\
     Atomic.line l = Atomic.LoopIncr /\ Atomic.i l = 0 /\
     Atomic.memeSmth l = Int.to_string 2).
Proof.
  split.
  - intros n k sched s j l [_ Hn] [_ Hk] Hn0 Hk0 Hs Hj.
    assert (0 <= k <= Int.INT_MAX) as Hk' by lia.
    pose proof (exec_invariant Mutex.threadCount Mutex.increment Mutex.entry Mutex.finished
                  (seq 0) Mutex.report
                  (fun s : Mutex.state =>
                     inv Mutex.finished (seq 0) Mutex.report (Z.to_nat n) EmptyString
                         (mutex_inv (Z.to_nat n) k) s /\
                     (forall j l, Harness.threads s !! j = Some l ->
                                  mutex_sees_own_write (Harness.glob s) l))
                  (fun t s s' H => mutex_sees_own_write_step (Z.to_nat n) k t s s' Hk' H)
                  sched (Mutex.start n k) s) as Hinv.
    apply Hinv in Hs as [_ He]; [exact (He j l Hj)|].
    split.
    + pose proof (mutex_reach_inv (Z.to_nat n) k Hk' (seq 0) (seq_perm_refl _) []
                    (Mutex.start n k)) as Hi.
      apply Hi. rewrite Z2Nat.id by lia. reflexivity.
    + intros j0 l0 H0. discriminate H0.
  - eexists _, _. split; [vm_compute; reflexivity|].
    split; [vm_compute; reflexivity|]. split_and!; reflexivity.
Qed.

Lemma mutex_string_shows_own_write_witness :
  exists s l,
    Mutex.exec [Main; Main; Worker 0; Worker 0; Worker 0; Worker 0; Worker 0]
      (Mutex.start 2 1) = Ok s /\
    Harness.threads s !! 0%nat = Some l /\
    Mutex.line l = Mutex.LoopIncr /\
    mutex_sees_own_write (Harness.glob s) l.
Proof.
  eexists _, _. split; [vm_compute; reflexivity|].
  split; [vm_compute; reflexivity|]. split; [reflexivity|].
  eapply (proj1 mutex_string_shows_own_write 2 1
            [Main; Main; Worker 0; Worker 0; Worker 0; Worker 0; Worker 0] _ 0%nat);
    [unfold Int.in_range, Int.INT_MIN, Int.INT_MAX; lia
    |unfold Int.in_range, Int.INT_MIN, Int.INT_MAX; lia
    |lia|lia|vm_compute; reflexivity|vm_compute; reflexivity].
Defined.


(** ** Blocks of increments *)

Lemma total_linear {L : Type} (f r h : L -> Z) (c : Z) (ws : list L) :
  (forall l, l ∈ ws -> f l = c * r l + h l) ->
  total f ws = c * total r ws + total h ws.
Proof.
  induction ws as [|w ws IH]; intros H; simpl; [lia|].
  rewrite IH by (intros l Hl; apply H; right; exact Hl).
  rewrite (H w) by left. lia.
Qed.

Lemma total_single {L : Type} (h : L -> Z) (ws : list L) (j : nat) (l : L) :
  ws !! j = Some l ->
  (forall j' l', ws !! j' = Some l' -> j' <> j -> h l' = 0) ->
  total h ws = h l.
Proof.
  revert j. induction ws as [|w ws IH]; intros [|j] Hj H; simpl in Hj; try discriminate.
  - injection Hj as ->. simpl.
    rewrite (total_const h 0 ws); [lia|].
    intros l' Hl'. apply list_elem_of_lookup in Hl' as [j' Hj'].
    apply (H (S j') l'); [exact Hj'|discriminate].
  - simpl. rewrite (IH j Hj).
    + rewrite (H 0%nat w); [lia|reflexivity|discriminate].
    + intros j' l' Hj' Hne. apply (H (S j') l'); [exact Hj'|congruence].
Qed.

Lemma mutex_performed_split (k : Z) (l : Mutex.locals) :
  0 <= k -> mutex_local_ok k l ->
  mutex_performed l = k * (if Mutex.finished l then 1 else 0) + mutex_in_progress l /\
  0 <= mutex_performed l <= k.
Proof.
  unfold mutex_in_progress, mutex_local_ok, mutex_performed, in_critical, Mutex.finished.
  destruct (Mutex.line l); lia.
Qed.

(** X4.  In the mutex program the increments come in blocks of
    [iterations]: in every state of every run the counter is [iterations]
    times the number of workers that have returned when the mutex is free,
    and that plus the increments of the owner when it is held. *)
Theorem mutex_increments_come_in_blocks (n k : Z) (sched : list tid) (s : Mutex.state) :
  Int.in_range n -> Int.in_range k -> 0 <= n -> 0 <= k ->
  Mutex.exec sched (Mutex.start n k) = Ok s ->
  mutex_blocks k (Harness.glob s) (Harness.threads s).
Proof.
  intros [_ Hn] [_ Hk] Hn0 Hk0 Hs.
  assert (0 <= k <= Int.INT_MAX) as Hk' by lia.
  rewrite <- (Z2Nat.id n) in Hs by lia.
  pose proof (mutex_reach_inv (Z.to_nat n) k Hk' (seq 0) (seq_perm_refl _) sched s Hs)
    as [(_ & _ & Hc & Hloc & Hown & _ & Hlen) _].
  assert (Mutex.counter (Harness.glob s) =
          k * mutex_returned (Harness.threads s) +
          total mutex_in_progress (Harness.threads s)) as Hsum.
  { rewrite Hc. apply total_linear. intros l Hl.
    apply list_elem_of_lookup in Hl as [j Hj].
    apply (mutex_performed_split k l Hk0 (Hloc j l Hj)). }
  unfold mutex_blocks. destruct (Mutex.m (Harness.glob s)) as [h|] eqn:Em.
  - destruct (lookup_lt_is_Some_2 (Harness.threads s) h (Hlen h eq_refl)) as [l Hh].
    assert (in_critical l = true) as Hcrit by (apply (Hown h l Hh); reflexivity).
    exists l. split_and!; [exact Hh|exact Hcrit
                          |apply (mutex_performed_split k l Hk0 (Hloc h l Hh))
                          |apply (mutex_performed_split k l Hk0 (Hloc h l Hh))|].
    rewrite Hsum, (total_single mutex_in_progress _ h l Hh).
    + unfold mutex_in_progress. rewrite Hcrit. reflexivity.
    + intros j' l' Hj' Hne. unfold mutex_in_progress.
      destruct (in_critical l') eqn:Ec; [|reflexivity].
      apply (Hown j' l' Hj') in Ec. congruence.
  - rewrite Hsum, (total_const mutex_in_progress 0); [lia|].
    intros l Hl. apply list_elem_of_lookup in Hl as [j Hj].
    unfold mutex_in_progress. destruct (in_critical l) eqn:Ec; [|reflexivity].
    apply (Hown j l Hj) in Ec. discriminate.
Qed.

Lemma mutex_increments_come_in_blocks_witness :
  exists s,
    Mutex.exec (serial 3 13) (Mutex.start 3 2) = Ok s /\
    mutex_blocks 2 (Harness.glob s) (Harness.threads s).
Proof.
  eexists. split; [vm_compute; reflexivity|].
  apply (mutex_increments_come_in_blocks 3 2 (serial 3 13));
    [unfold Int.in_range, Int.INT_MIN, Int.INT_MAX; lia
    |unfold Int.in_range, Int.INT_MIN, Int.INT_MAX; lia
    |lia|lia|vm_compute; reflexivity].
Defined.


(** ** After the joins *)

Lemma joined_worker_stuck {G L : Type} (body : nat -> G -> L -> result (G * L))
    (finished : L -> bool) (order : nat -> list nat) (report : G -> string)
    (n : nat) (o0 : string) (I : G -> list L -> Prop) (s : Harness.state G L) (j : nat) :
  (forall j g l, finished l = true -> body j g l = Stuck) ->
  inv finished order report n o0 I s -> joins_done (Harness.pc s) = true ->
  Harness.worker_step body j s = Stuck.
Proof.
  intros Hstuck [_ Hm] Hd. unfold Harness.worker_step.
  destruct (Harness.threads s !! j) as [l|] eqn:Hj; [|reflexivity].
  assert (finished l = true) as Hf.
  { unfold main_inv in Hm.
    destruct (Harness.pc s); try discriminate;
      [destruct Hm as (_ & _ & Hall)|destruct Hm as (_ & _ & Hall)
      |destruct Hm as (_ & _ & _ & Hall)];
      apply Hall, list_elem_of_lookup; eauto. }
  rewrite (Hstuck j (Harness.glob s) l Hf). reflexivity.
Qed.

(** X11.  The counter [main] prints is final: once [main] has left the loop
    of the joins, in any of the three programs, no worker moves any
    more. *)
Theorem no_worker_moves_after_the_joins :
  (forall n k sched (s : Mutex.state) j,
     Int.in_range n -> Int.in_range k -> 0 <= n -> 0 <= k ->
     Mutex.exec sched (Mutex.start n k) = Ok s ->
     joins_done (Harness.pc s) = true -> Mutex.step (Worker j) s = Stuck) /\
  (forall n k sched (s : Atomic.state) j,
     Int.in_range n -> Int.in_range k -> 0 <= n -> 0 <= k ->
     Atomic.exec sched (Atomic.start n k) = Ok s ->
     joins_done (Harness.pc s) = true -> Atomic.step (Worker j) s = Stuck) /\
  (forall cplusplus sched (s : FeatureTest.state) j,
     FeatureTest.exec cplusplus sched (FeatureTest.test_features cplusplus) = Ok s ->
     joins_done (Harness.pc s) = true -> FeatureTest.step cplusplus (Worker j) s = Stuck).
Proof.
  split_and!.
  - intros n k sched s j [_ Hn] [_ Hk] Hn0 Hk0 Hs Hd.
    assert (0 <= k <= Int.INT_MAX) as Hk' by lia.
    rewrite <- (Z2Nat.id n) in Hs by lia.
    pose proof (mutex_reach_inv (Z.to_nat n) k Hk' (seq 0) (seq_perm_refl _) sched s Hs) as Hi.
    exact (joined_worker_stuck Mutex.increment _ _ _ _ _ _ s j mutex_finished_stuck Hi Hd).
  - intros n k sched s j [_ Hn] [_ Hk] Hn0 Hk0 Hs Hd.
    assert (0 <= k <= Int.INT_MAX) as Hk' by lia.
    rewrite <- (Z2Nat.id n) in Hs by lia.
    pose proof (atomic_reach_inv (Z.to_nat n) k Hk' (seq 0) (seq_perm_refl _) sched s Hs) as Hi.
    exact (joined_worker_stuck Atomic.increment _ _ _ _ _ _ s j atomic_finished_stuck Hi Hd).
  - intros cplusplus sched s j Hs Hd.
    pose proof (feature_reach_inv cplusplus (seq 0) (seq_perm_refl _) sched s Hs) as Hi.
    exact (joined_worker_stuck FeatureTest.worker _ _ _ _ _ _ s j feature_finished_stuck Hi Hd).
Qed.

Lemma no_worker_moves_after_the_joins_witness :
  exists s,
    Mutex.exec (take 22 (serial 2 8)) (Mutex.start 2 1) = Ok s /\
    Harness.pc s = Printing /\
    Mutex.step (Worker 1) s = Stuck.
Proof.
  eexists. split; [vm_compute; reflexivity|]. split; [reflexivity|].
  eapply (proj1 no_worker_moves_after_the_joins 2 1
            (take 22 (serial 2 8)));
    [unfold Int.in_range, Int.INT_MIN, Int.INT_MAX; lia
    |unfold Int.in_range, Int.INT_MIN, Int.INT_MAX; lia
    |lia|lia|vm_compute; reflexivity|reflexivity].
Defined.
